(** * r9cc: the recursive-descent parser (parse.rs) and the x86 code
    generator (codegen.rs), shallowly embedded. *)

From Stdlib Require Import List String Ascii Arith Lia ZArith Bool.
Import ListNotations.

(* ------------------------------------------------------------------ *)
(** ** Shared data model *)

(** Modelled from the spec: the token kinds of token.rs (the lexer is not
    part of the sources), with the constructor names parse.rs uses. *)
Module TokenType.
Inductive t : Type :=
| Num (val : Z)                 (* i32 literal *)
| Str (data : string) (len : nat)
| Ident (name : string)
| Int | Char | If | For | While | Do | Return | Extern | Sizeof | Alignof | Else
| Plus | Minus | Mul | Div | And
| LeftAngleBracket | RightAngleBracket | EQ | NE | Logand | Logor
| Equal | Colon | Semicolon
| LeftParen | RightParen | LeftBracket | RightBracket | LeftBrace | RightBrace.

Definition eq_dec (a b : t) : {a = b} + {a <> b}.
Proof.
  decide equality; first [apply Z.eq_dec | apply string_dec | apply Nat.eq_dec].
Defined.

(** Rust's derived [PartialEq] on [TokenType]. *)
Definition eqb (a b : t) : bool := if eq_dec a b then true else false.
End TokenType.

(** Modelled from the spec: [Token {ty, input}] of token.rs; [input] is the
    raw source text of the token. *)
Record Token : Type := MkToken { ty : TokenType.t; input : string }.

(** The panics the two modules can raise; a panic aborts the process. *)
Inductive Panic : Type :=
| EndOfTokens                           (* [tokens[*pos]] with [*pos = tokens.len()] *)
| IndexOutOfBounds (index len : nat)    (* [REGS[i]] with [i >= REGS.len()] *)
| UnwrapNone                            (* [Option::unwrap] on [None] *)
| ExpectFailed (a1 a2 a3 a4 : TokenType.t)  (* the four [{:?}] arguments of [expect] *)
| PanicMsg (msg : string) (arg : string).   (* [panic!("<msg>{}", arg)] *)

(** Decimal rendering of a [usize], as Rust's [{}] prints it. *)
Fixpoint nat_to_string_aux (fuel n : nat) (acc : string) : string :=
  match fuel with
  | O => acc
  | S f =>
      let acc' := String (ascii_of_nat (48 + n mod 10)) acc in
      if n <? 10 then acc' else nat_to_string_aux f (n / 10) acc'
  end.

Definition nat_to_string (n : nat) : string := nat_to_string_aux (S n) n EmptyString.

(* ------------------------------------------------------------------ *)
(** ** The IR consumed by the code generator *)

(** Modelled from the spec: [IRType] and [IR {op, lhs, rhs}] of ir.rs;
    [lhs] and [rhs] are [Option<usize>], [rhs] being a register id or an
    immediate depending on [op] (codegen.rs uses it both ways). *)
Module IR.
Inductive IRType : Type :=
| Imm | Mov | Return | Alloca | Load | Store | Add | AddImm | Sub | Mul | Div
| Nop | Kill.

Record IR : Type := MkIR { op : IRType; lhs : option nat; rhs : option nat }.
End IR.

(* ------------------------------------------------------------------ *)
(** ** codegen.rs *)

Module Codegen.
Import IR.
Local Open Scope string_scope.

(** What [print!] has written so far, and whether the run went on with a
    value or panicked. *)
Inductive Out (A : Type) : Type :=
| Done (lines : list string) (a : A)
| Abort (lines : list string) (p : Panic).
Arguments Done {A} lines a.
Arguments Abort {A} lines p.

Definition obind {A B} (m : Out A) (k : A -> Out B) : Out B :=
  match m with
  | Done l a =>
      match k a with
      | Done l' b => Done (l ++ l')%list b
      | Abort l' p => Abort (l ++ l')%list p
      end
  | Abort l p => Abort l p
  end.

Definition oret {A} (a : A) : Out A := Done [] a.
Definition fail {A} (p : Panic) : Out A := Abort [] p.

(** One [print!("...\n")]: one line of assembly. *)
Definition print (s : string) : Out unit := Done [s] tt.

Definition unwrap (o : option nat) : Out nat :=
  match o with Some v => oret v | None => fail UnwrapNone end.

Local Notation "x <- m ;; k" := (obind m (fun x => k))
  (at level 61, m at next level, right associativity).
Local Notation "m ;;; k" := (obind m (fun _ : unit => k))
  (at level 61, right associativity).

(** The global label counter [n]: [gen_label] formats it, then bumps it. *)
Definition gen_label (n : nat) : string * nat := (".L" ++ nat_to_string n, S n).

Section Gen.
(** The physical register table [REGS] of main.rs is not in the sources;
    the code generator is verified for every table. *)
Variable REGS : list string.

(** [REGS[i]]: indexing a Rust array panics out of range. *)
Definition reg (i : nat) : Out string :=
  match nth_error REGS i with
  | Some r => oret r
  | None => fail (IndexOutOfBounds i (List.length REGS))
  end.

(** The body of the [for ir in irv] loop; format arguments are evaluated
    left to right before anything is printed. *)
Definition gen_ir (ret : string) (ir : IR) : Out unit :=
  lhs <- unwrap ir.(lhs) ;;
  match ir.(op) with
  | Imm => r <- reg lhs ;; v <- unwrap ir.(rhs) ;;
           print ("  mov " ++ r ++ ", " ++ nat_to_string v)
  | Mov => r <- reg lhs ;; s <- (i <- unwrap ir.(rhs) ;; reg i) ;;
           print ("  mov " ++ r ++ ", " ++ s)
  | Return => r <- reg lhs ;; print ("  mov rax, " ++ r) ;;;
              print ("  jmp " ++ ret)
  | Alloca =>
      (match ir.(rhs) with
       | Some v => print ("  sub rsp, " ++ nat_to_string v)
       | None => oret tt
       end) ;;;
      r <- reg lhs ;; print ("  mov " ++ r ++ ", rsp")
  | Load => r <- reg lhs ;; s <- (i <- unwrap ir.(rhs) ;; reg i) ;;
            print ("  mov " ++ r ++ ", [" ++ s ++ "]")
  | Store => r <- reg lhs ;; s <- (i <- unwrap ir.(rhs) ;; reg i) ;;
             print ("  mov [" ++ r ++ "], " ++ s)
  | Add => r <- reg lhs ;; s <- (i <- unwrap ir.(rhs) ;; reg i) ;;
           print ("  add " ++ r ++ ", " ++ s)
  | AddImm => r <- reg lhs ;; v <- unwrap ir.(rhs) ;;
              print ("  add " ++ r ++ ", " ++ nat_to_string v)
  | Sub => r <- reg lhs ;; s <- (i <- unwrap ir.(rhs) ;; reg i) ;;
           print ("  sub " ++ r ++ ", " ++ s)
  | Mul => s <- (i <- unwrap ir.(rhs) ;; reg i) ;; print ("  mov rax, " ++ s) ;;;
           r <- reg lhs ;; print ("  mul " ++ r) ;;;
           r <- reg lhs ;; print ("  mov " ++ r ++ ", rax")
  | Div => r <- reg lhs ;; print ("  mov rax, " ++ r) ;;;
           print "  cqo" ;;;
           s <- (i <- unwrap ir.(rhs) ;; reg i) ;; print ("  div " ++ s) ;;;
           r <- reg lhs ;; print ("  mov " ++ r ++ ", rax")
  | Nop | Kill => oret tt
  end.

Fixpoint gen_body (ret : string) (irv : list IR) : Out unit :=
  match irv with
  | [] => oret tt
  | ir :: rest => gen_ir ret ir ;;; gen_body ret rest
  end.

(** [gen_x86] run with label counter [n]: what it prints, and the counter
    afterwards. *)
Definition gen_x86 (n : nat) (irv : list IR) : Out unit * nat :=
  let (ret, n') := gen_label n in
  (print "  push rbp" ;;;
   print "  mov rbp, rsp" ;;;
   gen_body ret irv ;;;
   print (ret ++ ":") ;;;
   print "  mov rsp, rbp" ;;;
   print "  mov rsp, rbp" ;;;
   print "  pop rbp" ;;;
   print "  ret", n').

End Gen.

(** The register ids each opcode's branch indexes [REGS] with: [lhs] for
    every opcode except [Nop] and [Kill], and [rhs] too where it names a
    register rather than an immediate. *)
Definition opt_list (o : option nat) : list nat :=
  match o with Some v => [v] | None => [] end.

Definition reg_operands (ir : IR) : list nat :=
  match ir.(op) with
  | Imm | Return | Alloca | AddImm => opt_list ir.(lhs)
  | Mov | Load | Store | Add | Sub | Mul | Div => opt_list ir.(lhs) ++ opt_list ir.(rhs)
  | Nop | Kill => []
  end.

Definition prologue : list string := ["  push rbp"; "  mov rbp, rsp"].
Definition epilogue (ret : string) : list string :=
  [ret ++ ":"; "  mov rsp, rbp"; "  mov rsp, rbp"; "  pop rbp"; "  ret"].

End Codegen.

(* ------------------------------------------------------------------ *)
(** ** What one turn of [gen_x86]'s loop needs and prints *)

Module CodegenChecks.
Import IR Codegen.

(** [REGS[i]] does not panic. *)
Definition reg_in_range (REGS : list string) (i : nat) : bool := Nat.ltb i (List.length REGS).

(** The loop body runs to its end on [ir]: [ir.lhs] is set, and every
    [REGS[..]] index and every [unwrap] of [ir.rhs] its opcode's branch
    performs succeeds. *)
Definition ir_ok (REGS : list string) (ir : IR) : bool :=
  match ir.(lhs) with
  | None => false
  | Some l =>
      match ir.(op) with
      | Nop | Kill => true
      | Return | Alloca => reg_in_range REGS l
      | Imm | AddImm =>
          reg_in_range REGS l && match ir.(rhs) with Some _ => true | None => false end
      | Mov | Load | Store | Add | Sub | Mul | Div =>
          reg_in_range REGS l &&
          match ir.(rhs) with Some r => reg_in_range REGS r | None => false end
      end
  end.

(** The number of [print!] calls of each opcode's branch. *)
Definition ir_line_count (ir : IR) : nat :=
  match ir.(op) with
  | Imm | Mov | Load | Store | Add | AddImm | Sub => 1
  | Return => 2
  | Alloca => match ir.(rhs) with Some _ => 2 | None => 1 end
  | Mul => 3
  | Div => 4
  | Nop | Kill => 0
  end.

(** The opcodes whose branch is [Nop | Kill => ()]. *)
Definition is_nop_kill (ir : IR) : bool :=
  match ir.(op) with Nop | Kill => true | _ => false end.

(** The character [nat_to_string] writes for the last decimal digit. *)
Definition digit (n : nat) : ascii := ascii_of_nat (48 + n mod 10).
End CodegenChecks.

(* ------------------------------------------------------------------ *)
(** ** Semantics of the emitted division sequence (x86-64) *)

(** The instructions [gen_x86] emits for [Div], on 64-bit values held as
    unsigned [Z] in [0, 2^64): [cqo] sign-extends rax into rdx; [div src]
    divides the unsigned 128-bit rdx:rax by the unsigned [src] and faults
    (#DE, [None]) on a zero divisor or a quotient wider than 64 bits. *)
Module X86.
Local Open Scope Z_scope.
Definition cqo (rax : Z) : Z := if Z.testbit rax 63 then 2 ^ 64 - 1 else 0.

Definition div (rdx rax src : Z) : option Z :=
  if src =? 0 then None
  else let q := (rdx * 2 ^ 64 + rax) / src in
       if q <? 2 ^ 64 then Some q else None.

(** The two's-complement reading of a 64-bit value. *)
Definition signed (x : Z) : Z := if Z.testbit x 63 then x - 2 ^ 64 else x.

(** The quotient a signed division rounds toward zero, back in 64 bits. *)
Definition signed_quot (a b : Z) : Z := Z.quot (signed a) (signed b) mod 2 ^ 64.
End X86.

(* ------------------------------------------------------------------ *)
(** ** parse.rs: the AST *)

(** [Ctype] and its wrapper [Type {ty: Ctype}]. *)
Module Ctype.
Inductive t : Type :=
| Int
| Char
| Ptr (of_ : Type_)
| Ary (of_ : Type_) (len : nat)
with Type_ : Type :=
| MkType (ty : t).
End Ctype.
Abbreviation Type_ := Ctype.Type_ (only parsing).
Abbreviation MkType := Ctype.MkType.

(** Modelled from the spec: [Scope] of sema.rs, the storage placeholder. *)
Module Scope.
Inductive t : Type :=
| Local (offset : nat)
| Global (data : string) (size : nat) (is_extern : bool).
End Scope.

(** [NodeType] and [Node {op, ty}]; every [Box] is an owned child. *)
Module NodeType.
Inductive t : Type :=
| Num (val : Z)
| Str (data : string) (len : nat)
| Ident (name : string)
| Vardef (name : string) (init : option Node) (scope : Scope.t)
| Lvar (scope : Scope.t)
| Gvar (name data : string) (len : nat)
| BinOp (op : TokenType.t) (lhs rhs : Node)
| If (cond then_ : Node) (els : option Node)
| For (init cond inc body : Node)
| DoWhile (body cond : Node)
| Addr (e : Node)
| Deref (e : Node)
| Logand (l r : Node)
| Logor (l r : Node)
| Return (e : Node)
| Sizeof (e : Node)
| Alignof (e : Node)
| Call (name : string) (args : list Node)
| Func (name : string) (args : list Node) (body : Node) (stacksize : nat)
| CompStmt (stmts : list Node)
| ExprStmt (e : Node)
| StmtExpr (e : Node)
| Null
with Node : Type :=
| MkNode (op : t) (ty : Type_).
End NodeType.
Abbreviation Node := NodeType.Node.
Abbreviation MkNode := NodeType.MkNode.

(** [Node::new]: the type defaults to [Int]. *)
Definition new_node (op : NodeType.t) : Node := MkNode op (MkType Ctype.Int).

Definition new_binop (op : TokenType.t) (lhs rhs : Node) : Node :=
  new_node (NodeType.BinOp op lhs rhs).

Definition get_type (t : Token) : option Type_ :=
  match t.(ty) with
  | TokenType.Int => Some (MkType Ctype.Int)
  | TokenType.Char => Some (MkType Ctype.Char)
  | _ => None
  end.

(** [n as usize] for an [i32] [n]: sign extension to 64 bits. *)
Definition usize_of_i32 (n : Z) : nat := Z.to_nat (n mod 2 ^ 64).

(* ------------------------------------------------------------------ *)
(** ** parse.rs: the parser *)

Module Parse.

(** The cursor [(tokens, pos)] is represented by the unconsumed suffix
    [skipn pos tokens]: parse.rs only ever reads [tokens[*pos]], compares
    [tokens.len()] with [*pos] and increments [*pos], so the suffix carries
    exactly the information the parser uses. A parsing function returns its
    node and the suffix left, or the panic it raises; [OutOfFuel] bounds the
    recursion and is distinct from every behaviour of the program. *)
Inductive Res (A : Type) : Type :=
| Ok (a : A) (rest : list Token)
| Err (p : Panic)
| OutOfFuel.
Arguments Ok {A} a rest.
Arguments Err {A} p.
Arguments OutOfFuel {A}.

Definition PM (A : Type) : Type := list Token -> Res A.

Definition bind {A B} (m : PM A) (k : A -> PM B) : PM B :=
  fun s => match m s with
           | Ok a s' => k a s'
           | Err p => Err p
           | OutOfFuel => OutOfFuel
           end.

Definition ret {A} (a : A) : PM A := fun s => Ok a s.
Definition panic {A} (p : Panic) : PM A := fun _ => Err p.
Definition no_fuel {A} : PM A := fun _ => OutOfFuel.

Local Notation "x <- m ;; k" := (bind m (fun x => k))
  (at level 61, m at next level, right associativity).
Local Notation "m ;;; k" := (bind m (fun _ : unit => k))
  (at level 61, right associativity).

(** [&tokens[*pos]]: panics past the end. *)
Definition peek : PM Token :=
  fun s => match s with [] => Err EndOfTokens | t :: _ => Ok t s end.

(** [*pos += 1]. *)
Definition advance : PM unit := fun s => Ok tt (tl s).

(** [tokens.len() == *pos]. *)
Definition at_end : PM bool :=
  fun s => Ok (match s with [] => true | _ => false end) s.

Definition consume (k : TokenType.t) : PM bool :=
  t <- peek ;;
  if TokenType.eqb t.(ty) k then advance ;;; ret true else ret false.

(** [expect(ty, &tokens[*pos], pos)]: the token is read at the call site;
    the message's four [{:?}] arguments are [ty, ty, t.ty, t.ty]. *)
Definition expect (k : TokenType.t) : PM unit :=
  t <- peek ;;
  if TokenType.eqb t.(ty) k then advance
  else panic (ExpectFailed k k t.(ty) t.(ty)).

Fixpoint ctype_ptrs (fuel : nat) (typ : Type_) : PM Type_ :=
  match fuel with
  | O => no_fuel
  | S f =>
      b <- consume TokenType.Mul ;;
      if b then ctype_ptrs f (MkType (Ctype.Ptr typ)) else ret typ
  end.

Definition ctype (fuel : nat) : PM Type_ :=
  t <- peek ;;
  match get_type t with
  | Some typ => advance ;;; ctype_ptrs fuel typ
  | None => panic (PanicMsg "typename expected, but got " t.(input))
  end.

Section Parser.
(** [util::size_of] is not in the sources; the parser is verified for every
    such function. *)
Variable size_of : Type_ -> nat.

Fixpoint primary (fuel : nat) {struct fuel} : PM Node :=
  match fuel with
  | O => no_fuel
  | S f =>
  t <- peek ;; advance ;;;
  match t.(ty) with
  | TokenType.Num val => ret (MkNode (NodeType.Num val) (MkType Ctype.Int))
  | TokenType.Str s len =>
      ret (MkNode (NodeType.Str s len)
             (MkType (Ctype.Ary (MkType Ctype.Char) (String.length s))))
  | TokenType.Ident name =>
      b <- consume TokenType.LeftParen ;;
      if negb b then ret (new_node (NodeType.Ident name)) else
      b <- consume TokenType.RightParen ;;
      if b then ret (new_node (NodeType.Call name [])) else
      a <- assign f ;;
      args <- call_args f [a] ;;
      expect TokenType.RightParen ;;;
      ret (new_node (NodeType.Call name args))
  | TokenType.LeftParen =>
      b <- consume TokenType.LeftBrace ;;
      if b then
        st <- compound_stmt f ;;
        expect TokenType.RightParen ;;;
        ret (new_node (NodeType.StmtExpr st))
      else
        node <- assign f ;;
        expect TokenType.RightParen ;;;
        ret node
  | _ => panic (PanicMsg "number expected, but got " t.(input))
  end
  end

(** [while consume(Colon) { args.push(assign()) }] *)
with call_args (fuel : nat) (args : list Node) {struct fuel} : PM (list Node) :=
  match fuel with
  | O => no_fuel
  | S f =>
      b <- consume TokenType.Colon ;;
      if b then a <- assign f ;; call_args f (args ++ [a]) else ret args
  end

with postfix (fuel : nat) {struct fuel} : PM Node :=
  match fuel with
  | O => no_fuel
  | S f => lhs <- primary f ;; postfix_loop f lhs
  end

with postfix_loop (fuel : nat) (lhs : Node) {struct fuel} : PM Node :=
  match fuel with
  | O => no_fuel
  | S f =>
      b <- consume TokenType.LeftBracket ;;
      if b then
        i <- assign f ;;
        let lhs := new_node (NodeType.Deref (new_binop TokenType.Plus lhs i)) in
        expect TokenType.RightBracket ;;;
        postfix_loop f lhs
      else ret lhs
  end

with unary (fuel : nat) {struct fuel} : PM Node :=
  match fuel with
  | O => no_fuel
  | S f =>
      b <- consume TokenType.Mul ;;
      if b then e <- mul f ;; ret (new_node (NodeType.Deref e)) else
      b <- consume TokenType.And ;;
      if b then e <- mul f ;; ret (new_node (NodeType.Addr e)) else
      b <- consume TokenType.Sizeof ;;
      if b then e <- unary f ;; ret (new_node (NodeType.Sizeof e)) else
      b <- consume TokenType.Alignof ;;
      if b then e <- unary f ;; ret (new_node (NodeType.Alignof e)) else
      postfix f
  end

with mul (fuel : nat) {struct fuel} : PM Node :=
  match fuel with
  | O => no_fuel
  | S f => lhs <- unary f ;; mul_loop f lhs
  end

with mul_loop (fuel : nat) (lhs : Node) {struct fuel} : PM Node :=
  match fuel with
  | O => no_fuel
  | S f =>
      e <- at_end ;;
      if e then ret lhs else
      t <- peek ;;
      if negb (TokenType.eqb t.(ty) TokenType.Mul)
         && negb (TokenType.eqb t.(ty) TokenType.Div) then ret lhs else
      advance ;;;
      rhs <- unary f ;;
      mul_loop f (new_binop t.(ty) lhs rhs)
  end

with add (fuel : nat) {struct fuel} : PM Node :=
  match fuel with
  | O => no_fuel
  | S f => lhs <- mul f ;; add_loop f lhs
  end

with add_loop (fuel : nat) (lhs : Node) {struct fuel} : PM Node :=
  match fuel with
  | O => no_fuel
  | S f =>
      e <- at_end ;;
      if e then ret lhs else
      t <- peek ;;
      if negb (TokenType.eqb t.(ty) TokenType.Plus)
         && negb (TokenType.eqb t.(ty) TokenType.Minus) then ret lhs else
      advance ;;;
      rhs <- mul f ;;
      add_loop f (new_binop t.(ty) lhs rhs)
  end

with rel (fuel : nat) {struct fuel} : PM Node :=
  match fuel with
  | O => no_fuel
  | S f => lhs <- add f ;; rel_loop f lhs
  end

with rel_loop (fuel : nat) (lhs : Node) {struct fuel} : PM Node :=
  match fuel with
  | O => no_fuel
  | S f =>
      t <- peek ;;
      if TokenType.eqb t.(ty) TokenType.LeftAngleBracket then
        advance ;;;
        rhs <- add f ;;
        rel_loop f (new_binop TokenType.LeftAngleBracket lhs rhs)
      else if TokenType.eqb t.(ty) TokenType.RightAngleBracket then
        advance ;;;
        l <- add f ;;
        rel_loop f (new_binop TokenType.LeftAngleBracket l lhs)
      else ret lhs
  end

(** The body of [equality]'s [loop] runs once: both tests look at the
    token [t] read before the first one, then it returns. *)
with equality (fuel : nat) {struct fuel} : PM Node :=
  match fuel with
  | O => no_fuel
  | S f =>
      lhs <- rel f ;;
      t <- peek ;;
      lhs <- (if TokenType.eqb t.(ty) TokenType.EQ then
                advance ;;; r <- rel f ;; ret (new_binop TokenType.EQ lhs r)
              else ret lhs) ;;
      lhs <- (if TokenType.eqb t.(ty) TokenType.NE then
                advance ;;; r <- rel f ;; ret (new_binop TokenType.NE lhs r)
              else ret lhs) ;;
      ret lhs
  end

with logand (fuel : nat) {struct fuel} : PM Node :=
  match fuel with
  | O => no_fuel
  | S f => lhs <- equality f ;; logand_loop f lhs
  end

with logand_loop (fuel : nat) (lhs : Node) {struct fuel} : PM Node :=
  match fuel with
  | O => no_fuel
  | S f =>
      t <- peek ;;
      if negb (TokenType.eqb t.(ty) TokenType.Logand) then ret lhs else
      advance ;;;
      r <- equality f ;;
      logand_loop f (new_node (NodeType.Logand lhs r))
  end

with logor (fuel : nat) {struct fuel} : PM Node :=
  match fuel with
  | O => no_fuel
  | S f => lhs <- logand f ;; logor_loop f lhs
  end

with logor_loop (fuel : nat) (lhs : Node) {struct fuel} : PM Node :=
  match fuel with
  | O => no_fuel
  | S f =>
      t <- peek ;;
      if negb (TokenType.eqb t.(ty) TokenType.Logor) then ret lhs else
      advance ;;;
      r <- logand f ;;
      logor_loop f (new_node (NodeType.Logor lhs r))
  end

with assign (fuel : nat) {struct fuel} : PM Node :=
  match fuel with
  | O => no_fuel
  | S f =>
      lhs <- logor f ;;
      b <- consume TokenType.Equal ;;
      if b then r <- logor f ;; ret (new_binop TokenType.Equal lhs r)
      else ret lhs
  end

(** The [while consume(LeftBracket)] loop of [read_array]. *)
with read_dims (fuel : nat) (v : list nat) {struct fuel} : PM (list nat) :=
  match fuel with
  | O => no_fuel
  | S f =>
      b <- consume TokenType.LeftBracket ;;
      if b then
        len <- primary f ;;
        match len with
        | MkNode (NodeType.Num n) _ =>
            expect TokenType.RightBracket ;;; read_dims f (v ++ [usize_of_i32 n])
        | _ => panic (PanicMsg "number expected" EmptyString)
        end
      else ret v
  end

with read_array (fuel : nat) (typ : Type_) {struct fuel} : PM Type_ :=
  match fuel with
  | O => no_fuel
  | S f =>
      v <- read_dims f [] ;;
      ret (fold_left (fun typ val => MkType (Ctype.Ary typ val)) v typ)
  end

with decl (fuel : nat) {struct fuel} : PM Node :=
  match fuel with
  | O => no_fuel
  | S f =>
      typ <- ctype f ;;
      t <- peek ;;
      match t.(ty) with
      | TokenType.Ident name =>
          advance ;;;
          typ <- read_array f typ ;;
          b <- consume TokenType.Equal ;;
          init <- (if b then a <- assign f ;; ret (Some a) else ret None) ;;
          expect TokenType.Semicolon ;;;
          ret (MkNode (NodeType.Vardef name init (Scope.Local 0)) typ)
      | _ => panic (PanicMsg "variable name expected, but got " t.(input))
      end
  end

with expr_stmt (fuel : nat) {struct fuel} : PM Node :=
  match fuel with
  | O => no_fuel
  | S f =>
      e <- assign f ;;
      let node := new_node (NodeType.ExprStmt e) in
      expect TokenType.Semicolon ;;;
      ret node
  end

with stmt (fuel : nat) {struct fuel} : PM Node :=
  match fuel with
  | O => no_fuel
  | S f =>
  t <- peek ;;
  match t.(ty) with
  | TokenType.Int | TokenType.Char => decl f
  | TokenType.If =>
      advance ;;;
      expect TokenType.LeftParen ;;;
      cond <- assign f ;;
      expect TokenType.RightParen ;;;
      then_ <- stmt f ;;
      b <- consume TokenType.Else ;;
      els <- (if b then s <- stmt f ;; ret (Some s) else ret None) ;;
      ret (new_node (NodeType.If cond then_ els))
  | TokenType.For =>
      advance ;;;
      expect TokenType.LeftParen ;;;
      t <- peek ;;
      init <- (match get_type t with Some _ => decl f | None => expr_stmt f end) ;;
      cond <- assign f ;;
      expect TokenType.Semicolon ;;;
      inc <- assign f ;;
      let inc := new_node (NodeType.ExprStmt inc) in
      expect TokenType.RightParen ;;;
      body <- stmt f ;;
      ret (new_node (NodeType.For init cond inc body))
  | TokenType.While =>
      advance ;;;
      expect TokenType.LeftParen ;;;
      cond <- assign f ;;
      expect TokenType.RightParen ;;;
      body <- stmt f ;;
      ret (new_node (NodeType.For (new_node NodeType.Null) cond
                                  (new_node NodeType.Null) body))
  | TokenType.Do =>
      advance ;;;
      body <- stmt f ;;
      expect TokenType.While ;;;
      expect TokenType.LeftParen ;;;
      cond <- assign f ;;
      expect TokenType.RightParen ;;;
      expect TokenType.Semicolon ;;;
      ret (new_node (NodeType.DoWhile body cond))
  | TokenType.Return =>
      advance ;;;
      e <- assign f ;;
      expect TokenType.Semicolon ;;;
      ret (new_node (NodeType.Return e))
  | TokenType.LeftBrace =>
      advance ;;;
      stmts <- stmt_list f [] ;;
      ret (new_node (NodeType.CompStmt stmts))
  | TokenType.Semicolon =>
      advance ;;;
      ret (new_node NodeType.Null)
  | _ =>
      e <- assign f ;;
      let node := new_node (NodeType.ExprStmt e) in
      expect TokenType.Semicolon ;;;
      ret node
  end
  end

(** [while !consume(RightBrace) { stmts.push(stmt()) }], shared by the
    block statement and [compound_stmt]. *)
with stmt_list (fuel : nat) (stmts : list Node) {struct fuel} : PM (list Node) :=
  match fuel with
  | O => no_fuel
  | S f =>
      b <- consume TokenType.RightBrace ;;
      if b then ret stmts else s <- stmt f ;; stmt_list f (stmts ++ [s])
  end

with compound_stmt (fuel : nat) {struct fuel} : PM Node :=
  match fuel with
  | O => no_fuel
  | S f =>
      stmts <- stmt_list f [] ;;
      ret (new_node (NodeType.CompStmt stmts))
  end.

Definition param (fuel : nat) : PM Node :=
  typ <- ctype fuel ;;
  t <- peek ;;
  match t.(ty) with
  | TokenType.Ident name =>
      advance ;;;
      ret (MkNode (NodeType.Vardef name None (Scope.Local 0)) typ)
  | _ => panic (PanicMsg "parameter name expected, but got " t.(input))
  end.

Fixpoint param_list (fuel : nat) (args : list Node) : PM (list Node) :=
  match fuel with
  | O => no_fuel
  | S f =>
      b <- consume TokenType.Colon ;;
      if b then p <- param f ;; param_list f (args ++ [p]) else ret args
  end.

Definition toplevel (fuel : nat) : PM Node :=
  is_extern <- consume TokenType.Extern ;;
  typ <- ctype fuel ;;
  t <- peek ;;
  match t.(ty) with
  | TokenType.Ident name =>
      advance ;;;
      b <- consume TokenType.LeftParen ;;
      if b then
        args <- (b <- consume TokenType.RightParen ;;
                 if b then ret []
                 else p <- param fuel ;;
                      args <- param_list fuel [p] ;;
                      expect TokenType.RightParen ;;;
                      ret args) ;;
        expect TokenType.LeftBrace ;;;
        body <- compound_stmt fuel ;;
        ret (new_node (NodeType.Func name args body 0))
      else
        typ <- read_array fuel typ ;;
        let node :=
          if is_extern
          then MkNode (NodeType.Vardef name None (Scope.Global EmptyString 0 true)) typ
          else MkNode (NodeType.Vardef name None
                         (Scope.Global EmptyString (size_of typ) false)) typ in
        expect TokenType.Semicolon ;;;
        ret node
  | _ => panic (PanicMsg "function or variable name expected, but got " t.(input))
  end.

(** [while tokens.len() != pos { v.push(toplevel()) }] *)
Fixpoint parse_loop (fuel : nat) (v : list Node) : PM (list Node) :=
  match fuel with
  | O => no_fuel
  | S f =>
      e <- at_end ;;
      if e then ret v else n <- toplevel f ;; parse_loop f (v ++ [n])
  end.

Definition parse (fuel : nat) (tokens : list Token) : Res (list Node) :=
  parse_loop fuel [] tokens.

End Parser.
End Parse.

(* ================================================================== *)
(** * Inputs used by the examples *)

(** The IR [Imm(r0, 5); Return(r0)] with a two-register table, and the
    lines [gen_x86] prints for it as the first function ([.L0]). *)
Module CodegenExamples.
Import IR.
Local Open Scope string_scope.

Definition c1_regs : list string := ["rdi"; "rsi"].
Definition c1_irv : list IR := [MkIR Imm (Some 0) (Some 5); MkIR Return (Some 0) None].
Definition c1_lines : list string :=
  ["  push rbp"; "  mov rbp, rsp"; "  mov rdi, 5"; "  mov rax, rdi";
   "  jmp .L0"; ".L0:"; "  mov rsp, rbp"; "  mov rsp, rbp"; "  pop rbp"; "  ret"].
End CodegenExamples.

(** Tokens and trees for the parser examples. A token's [input] is the
    text the lexer read. *)
Module ParseExamples.
Local Open Scope string_scope.

Definition tk_ident (x : string) : Token := MkToken (TokenType.Ident x) x.
Definition tk_num (z : Z) (text : string) : Token := MkToken (TokenType.Num z) text.
Definition tk_int : Token := MkToken TokenType.Int "int".
Definition tk_sizeof : Token := MkToken TokenType.Sizeof "sizeof".
Definition tk_plus : Token := MkToken TokenType.Plus "+".
Definition tk_minus : Token := MkToken TokenType.Minus "-".
Definition tk_star : Token := MkToken TokenType.Mul "*".
Definition tk_lt : Token := MkToken TokenType.LeftAngleBracket "<".
Definition tk_gt : Token := MkToken TokenType.RightAngleBracket ">".
Definition tk_eqeq : Token := MkToken TokenType.EQ "==".
Definition tk_assign : Token := MkToken TokenType.Equal "=".
Definition tk_lparen : Token := MkToken TokenType.LeftParen "(".
Definition tk_rparen : Token := MkToken TokenType.RightParen ")".
Definition tk_semi : Token := MkToken TokenType.Semicolon ";".

(** The node [primary] builds for a number token, and [Node::new(Ident)]. *)
Definition num_node (z : Z) : Node := MkNode (NodeType.Num z) (MkType Ctype.Int).
Definition var_node (x : string) : Node := new_node (NodeType.Ident x).
End ParseExamples.

(* ================================================================== *)
(** * Predicates over parsing functions *)

Module ParseSpec.
Import Parse.

(** A parsing function only moves forward: the tokens it leaves are a
    suffix of those it was given. *)
Definition Suf {A} (m : PM A) : Prop :=
  forall s a s', m s = Ok a s' -> exists x, s = x ++ s'.

(** It consumes at least one token. *)
Definition Strict {A} (m : PM A) : Prop :=
  forall s a s', m s = Ok a s' -> List.length s' < List.length s.

(** What a parsing function returns does not depend on what follows the
    tokens it consumed, as long as the token right after them is replaced
    by one related by [R]: if [m] reads [c], leaves [c2 ++ t :: ts], then
    on [c ++ t' :: ts'] it gives the same result and leaves
    [c2 ++ t' :: ts']. *)
Definition Frame (R : Token -> Token -> Prop) {A} (m : PM A) : Prop :=
  forall c c2 t t' ts ts' a, R t t' ->
  m (c ++ t :: ts) = Ok a (c2 ++ t :: ts) ->
  m (c ++ t' :: ts') = Ok a (c2 ++ t' :: ts').

Definition SFe {A} (m : PM A) : Prop := Suf m /\ Frame eq m.

(** The token kinds the functions of the additive layer ([primary] to
    [add]) test with [consume] or a comparison: where an additive
    expression ends, one of them could continue it. *)
Definition add_continuations : list TokenType.t :=
  [TokenType.Mul; TokenType.And; TokenType.Sizeof; TokenType.Alignof;
   TokenType.LeftParen; TokenType.RightParen; TokenType.LeftBrace;
   TokenType.LeftBracket; TokenType.Div; TokenType.Plus; TokenType.Minus].

Definition ends_add (t : Token) : bool :=
  negb (existsb (TokenType.eqb t.(ty)) add_continuations).

Definition both_end_add (t t' : Token) : Prop :=
  ends_add t = true /\ ends_add t' = true.

(** More fuel never changes a result that was reached. *)
Definition Mono {A} (m1 m2 : PM A) : Prop :=
  forall s, m1 s = OutOfFuel \/ m1 s = m2 s.

(** No [BinOp(RightAngleBracket, _, _)] anywhere in the tree. *)
Fixpoint gt_free (n : Node) : bool :=
  let opt (o : option Node) : bool :=
    match o with Some x => gt_free x | None => true end in
  match n with
  | MkNode op _ =>
      match op with
      | NodeType.BinOp k l r =>
          negb (TokenType.eqb k TokenType.RightAngleBracket) && gt_free l && gt_free r
      | NodeType.Vardef _ init _ => opt init
      | NodeType.If c t e => gt_free c && gt_free t && opt e
      | NodeType.For a b c d => gt_free a && gt_free b && gt_free c && gt_free d
      | NodeType.DoWhile a b | NodeType.Logand a b | NodeType.Logor a b =>
          gt_free a && gt_free b
      | NodeType.Addr e | NodeType.Deref e | NodeType.Return e | NodeType.Sizeof e
      | NodeType.Alignof e | NodeType.ExprStmt e | NodeType.StmtExpr e => gt_free e
      | NodeType.Call _ args => forallb gt_free args
      | NodeType.Func _ args body _ => forallb gt_free args && gt_free body
      | NodeType.CompStmt stmts => forallb gt_free stmts
      | _ => true
      end
  end.

(** The invariant carried by each type of value a parsing function
    returns: trees are [gt_free], other values are unconstrained. *)
Class Good (A : Type) := good : A -> Prop.
#[export] Instance good_node : Good Node := fun n => gt_free n = true.
#[export] Instance good_list : Good (list Node) := fun l => forallb gt_free l = true.
#[export] Instance good_option : Good (option Node) :=
  fun o => match o with Some n => gt_free n = true | None => True end.
#[export] Instance good_bool : Good bool := fun _ => True.
#[export] Instance good_unit : Good unit := fun _ => True.
#[export] Instance good_token : Good Token := fun _ => True.
#[export] Instance good_type : Good Type_ := fun _ => True.
#[export] Instance good_nats : Good (list nat) := fun _ => True.

Definition Post {A} `{Good A} (m : PM A) : Prop :=
  forall s a s', m s = Ok a s' -> good a.

(** A property of every function of the mutual block at fuel [f]. *)
Definition all_parsers (Pr : forall A, PM A -> Prop) (f : nat) : Prop :=
  Pr _ (primary f) /\ (forall a, Pr _ (call_args f a)) /\
  Pr _ (postfix f) /\ (forall l, Pr _ (postfix_loop f l)) /\
  Pr _ (unary f) /\ Pr _ (mul f) /\ (forall l, Pr _ (mul_loop f l)) /\
  Pr _ (add f) /\ (forall l, Pr _ (add_loop f l)) /\
  Pr _ (rel f) /\ (forall l, Pr _ (rel_loop f l)) /\
  Pr _ (equality f) /\
  Pr _ (logand f) /\ (forall l, Pr _ (logand_loop f l)) /\
  Pr _ (logor f) /\ (forall l, Pr _ (logor_loop f l)) /\
  Pr _ (assign f) /\
  (forall v, Pr _ (read_dims f v)) /\ (forall t, Pr _ (read_array f t)) /\
  Pr _ (decl f) /\ Pr _ (expr_stmt f) /\ Pr _ (stmt f) /\
  (forall l, Pr _ (stmt_list f l)) /\ Pr _ (compound_stmt f).

Definition add_layer_frame (f : nat) : Prop :=
  Frame both_end_add (primary f) /\ Frame both_end_add (postfix f) /\
  (forall l, Frame both_end_add (postfix_loop f l)) /\
  Frame both_end_add (unary f) /\ Frame both_end_add (mul f) /\
  (forall l, Frame both_end_add (mul_loop f l)) /\
  Frame both_end_add (add f) /\ (forall l, Frame both_end_add (add_loop f l)).

Definition mono_parsers (f g : nat) : Prop :=
  Mono (primary f) (primary g) /\ (forall a, Mono (call_args f a) (call_args g a)) /\
  Mono (postfix f) (postfix g) /\ (forall l, Mono (postfix_loop f l) (postfix_loop g l)) /\
  Mono (unary f) (unary g) /\ Mono (mul f) (mul g) /\
  (forall l, Mono (mul_loop f l) (mul_loop g l)) /\
  Mono (add f) (add g) /\ (forall l, Mono (add_loop f l) (add_loop g l)) /\
  Mono (rel f) (rel g) /\ (forall l, Mono (rel_loop f l) (rel_loop g l)) /\
  Mono (equality f) (equality g) /\
  Mono (logand f) (logand g) /\ (forall l, Mono (logand_loop f l) (logand_loop g l)) /\
  Mono (logor f) (logor g) /\ (forall l, Mono (logor_loop f l) (logor_loop g l)) /\
  Mono (assign f) (assign g) /\
  (forall v, Mono (read_dims f v) (read_dims g v)) /\
  (forall t, Mono (read_array f t) (read_array g t)) /\
  Mono (decl f) (decl g) /\ Mono (expr_stmt f) (expr_stmt g) /\ Mono (stmt f) (stmt g) /\
  (forall l, Mono (stmt_list f l) (stmt_list g l)) /\
  Mono (compound_stmt f) (compound_stmt g).

Definition post_parsers (f : nat) : Prop :=
  Post (primary f) /\ (forall a, good a -> Post (call_args f a)) /\
  Post (postfix f) /\ (forall l, good l -> Post (postfix_loop f l)) /\
  Post (unary f) /\ Post (mul f) /\ (forall l, good l -> Post (mul_loop f l)) /\
  Post (add f) /\ (forall l, good l -> Post (add_loop f l)) /\
  Post (rel f) /\ (forall l, good l -> Post (rel_loop f l)) /\
  Post (equality f) /\
  Post (logand f) /\ (forall l, good l -> Post (logand_loop f l)) /\
  Post (logor f) /\ (forall l, good l -> Post (logor_loop f l)) /\
  Post (assign f) /\
  Post (decl f) /\ Post (expr_stmt f) /\ Post (stmt f) /\
  (forall l, good l -> Post (stmt_list f l)) /\ Post (compound_stmt f).
End ParseSpec.

(* ------------------------------------------------------------------ *)
(** ** Shapes of parser inputs and outputs *)

Module ParseChecks.
Import Parse ParseExamples.
Local Open Scope string_scope.

(** The node [param] builds: a local variable without initializer. *)
Definition param_node_ok (n : Node) : bool :=
  match n with
  | MkNode (NodeType.Vardef _ None (Scope.Local 0)) _ => true
  | _ => false
  end.

(** The nodes [toplevel] builds: a function whose parameters are built by
    [param] and whose body is a block, or a global variable without
    initializer, of size 0 when [extern] and [size_of] of its type
    otherwise. *)
Definition toplevel_node_ok (size_of : Type_ -> nat) (n : Node) : bool :=
  match n with
  | MkNode (NodeType.Func _ args (MkNode (NodeType.CompStmt _) _) 0) _ =>
      forallb param_node_ok args
  | MkNode (NodeType.Vardef _ None (Scope.Global data size is_extern)) typ =>
      String.eqb data EmptyString &&
      (if is_extern then Nat.eqb size 0 else Nat.eqb size (size_of typ))
  | _ => false
  end.

(** The tokens of one array dimension [[n]], [n] written as [text]. *)
Definition dim_tokens (d : Z * string) : list Token :=
  [MkToken TokenType.LeftBracket "["; MkToken (TokenType.Num (fst d)) (snd d);
   MkToken TokenType.RightBracket "]"].

Definition tk_if : Token := MkToken TokenType.If "if".
Definition tk_else : Token := MkToken TokenType.Else "else".

(** [m] consumes at least one token of an input that starts with [t]. *)
Definition Strict1 {A} (t : Token) (m : PM A) : Prop :=
  forall s b s', m (t :: s) = Ok b s' -> List.length s' <= List.length s.
End ParseChecks.

(* ================================================================== *)
(** * Properties of the code generator *)

Module CodegenFacts.
Import IR Codegen CodegenExamples.
Local Open Scope string_scope.

Lemma obind_done {A B} (m : Out A) (k : A -> Out B) l b :
  obind m k = Done l b ->
  exists l1 a l2, m = Done l1 a /\ k a = Done l2 b /\ l = (l1 ++ l2)%list.
Proof.
  destruct m as [l1 a|l1 p]; simpl; [|discriminate].
  destruct (k a) as [l2 b'|l2 p] eqn:E; intro H; inversion H; subst; eauto 7.
Qed.

Lemma obind_assoc {A B C} (m : Out A) (k : A -> Out B) (k' : B -> Out C) :
  obind (obind m k) k' = obind m (fun a => obind (k a) k').
Proof.
  destruct m as [l a|l p]; simpl; [|reflexivity].
  destruct (k a) as [l2 b|l2 p]; simpl; [|reflexivity].
  destruct (k' b) as [l3 c|l3 p]; rewrite app_assoc; reflexivity.
Qed.

Lemma gen_body_app REGS ret pre post :
  gen_body REGS ret (pre ++ post)
  = obind (gen_body REGS ret pre) (fun _ => gen_body REGS ret post).
Proof.
  induction pre as [|ir pre IH]; simpl.
  - destruct (gen_body REGS ret post); reflexivity.
  - rewrite obind_assoc, IH. f_equal.
Qed.

Lemma gen_body_done REGS ret irv body :
  gen_body REGS ret irv = Done body tt ->
  exists outs, Forall2 (fun ir o => gen_ir REGS ret ir = Done o tt) irv outs
               /\ body = List.concat outs.
Proof.
  revert body; induction irv as [|ir irv IH]; simpl; intros body H.
  - inversion H; subst. exists []. split; constructor.
  - apply obind_done in H as (l1 & [] & l2 & H1 & H2 & ->).
    destruct (IH _ H2) as (outs & Hf & ->).
    exists (l1 :: outs). split; [constructor; assumption | reflexivity].
Qed.

Lemma gen_x86_done REGS n irv lines :
  fst (gen_x86 REGS n irv) = Done lines tt ->
  exists body, gen_body REGS (fst (gen_label n)) irv = Done body tt
               /\ lines = (prologue ++ body ++ epilogue (fst (gen_label n)))%list.
Proof.
  unfold gen_x86, gen_label.
  destruct (gen_body REGS (".L" ++ nat_to_string n) irv) as [body []|body p] eqn:E;
    simpl; rewrite ?E; simpl; intro H; inversion H; subst.
  exists body. split; [exact E|]. reflexivity.
Qed.

Ltac out_cases H :=
  repeat match type of H with
         | context [nth_error ?l ?i] => destruct (nth_error l i) eqn:?; simpl in H
         | context [match ?r with Some _ => _ | None => _ end] =>
             is_var r; destruct r; simpl in H
         end.

(** No line of an instruction's output is [pop rbp] or [ret]. *)
Lemma gen_ir_no_pop_ret REGS ret ir o :
  gen_ir REGS ret ir = Done o tt ->
  Forall (fun s => s <> "  pop rbp" /\ s <> "  ret") o.
Proof.
  destruct ir as [o' l r]; unfold gen_ir, reg, unwrap, print, oret, fail; simpl.
  intro H; destruct l; simpl in H; [|discriminate].
  destruct o'; simpl in H; out_cases H; try discriminate; inversion H; subst;
    repeat constructor; simpl; discriminate.
Qed.

Lemma not_in_concat_outs REGS ret irv outs s :
  (s = "  pop rbp" \/ s = "  ret") ->
  Forall2 (fun ir o => gen_ir REGS ret ir = Done o tt) irv outs ->
  ~ In s (List.concat outs).
Proof.
  intros Hs HF; induction HF as [|ir o irv outs Hg HF IH]; simpl; [tauto|].
  rewrite in_app_iff. intros [Hin|Hin]; [|tauto].
  apply gen_ir_no_pop_ret in Hg. rewrite Forall_forall in Hg.
  destruct (Hg _ Hin) as [H1 H2]. destruct Hs; subst; tauto.
Qed.

Lemma Forall2_in_l {A B} (P : A -> B -> Prop) l1 l2 x :
  Forall2 P l1 l2 -> In x l1 -> exists y, P x y.
Proof.
  induction 1 as [|a b l1 l2 Hab _ IH]; simpl; [tauto|].
  intros [->|Hin]; eauto.
Qed.

Lemma gen_ir_nop_kill REGS ret o i r :
  o = Nop \/ o = Kill -> gen_ir REGS ret (MkIR o (Some i) r) = Done [] tt.
Proof. intros [-> | ->]; reflexivity. Qed.

Lemma gen_ir_out_of_range REGS ret ir i :
  In i (reg_operands ir) -> List.length REGS <= i ->
  exists l p, gen_ir REGS ret ir = Abort l p.
Proof.
  intros Hin Hle.
  assert (Hn : nth_error REGS i = None) by (apply nth_error_None; lia).
  destruct ir as [o l r]; unfold reg_operands in Hin; simpl in Hin.
  destruct l as [j|]; [|eexists; eexists; reflexivity].
  unfold gen_ir, reg, unwrap, print, oret, fail; simpl.
  destruct o; simpl in Hin; try contradiction;
    repeat (match goal with
            | |- context [nth_error ?l ?x] => destruct (nth_error l x) eqn:?
            | |- context [match ?r with Some _ => _ | None => _ end] =>
                is_var r; destruct r
            end; simpl in * );
    first [ do 2 eexists; reflexivity | exfalso; intuition (subst; congruence) ].
Qed.

Lemma gen_body_abort_at REGS ret pre ir rest body l p :
  gen_body REGS ret pre = Done body tt ->
  gen_ir REGS ret ir = Abort l p ->
  gen_body REGS ret (pre ++ ir :: rest) = Abort (body ++ l)%list p.
Proof.
  intros Hpre Hir. rewrite gen_body_app, Hpre. simpl. rewrite Hir. reflexivity.
Qed.

Lemma gen_x86_abort REGS n irv l p :
  gen_body REGS (fst (gen_label n)) irv = Abort l p ->
  fst (gen_x86 REGS n irv) = Abort (prologue ++ l)%list p.
Proof.
  unfold gen_x86, gen_label; simpl fst; intro H. simpl. rewrite H. reflexivity.
Qed.

(** Every line an instruction prints, also before it panics, starts with
    two spaces and is neither [pop rbp] nor [ret]: it is no epilogue line. *)
Lemma gen_ir_no_epilogue_line REGS ret ir :
  match gen_ir REGS ret ir with
  | Done o _ | Abort o _ =>
      Forall (fun s => s <> "  pop rbp" /\ s <> "  ret" /\ forall x, s <> ".L" ++ x) o
  end.
Proof.
  destruct ir as [o' [l|] r]; [|constructor].
  unfold gen_ir, reg, unwrap, print, oret, fail; simpl.
  destruct o'; simpl; destruct (nth_error REGS l); simpl;
    try destruct r as [r|]; simpl; try destruct (nth_error REGS r); simpl;
    repeat constructor; repeat intro; simpl in *; discriminate.
Qed.

Lemma gen_body_no_epilogue_line REGS ret irv :
  match gen_body REGS ret irv with
  | Done o _ | Abort o _ =>
      Forall (fun s => s <> "  pop rbp" /\ s <> "  ret" /\ forall x, s <> ".L" ++ x) o
  end.
Proof.
  induction irv as [|ir irv IH]; simpl; [constructor|].
  pose proof (gen_ir_no_epilogue_line REGS ret ir) as Hir.
  destruct (gen_ir REGS ret ir) as [o1 []|o1 p]; simpl; [|exact Hir].
  destruct (gen_body REGS ret irv) as [o2 []|o2 p]; apply Forall_app; split; assumption.
Qed.

(** C1 (amended). On every IR sequence that [gen_x86] processes without
    aborting, the output is the prologue ([push rbp], [mov rbp, rsp]), the
    lines of each instruction in order, then the one epilogue (the return
    label line, [mov rsp, rbp] twice, [pop rbp], [ret]); every [Return]
    emits [mov rax, <its register>] then [jmp] to that label; the output
    holds [pop rbp] once and [ret] once. On a sequence that aborts, the
    output is the prologue followed by what the instructions printed
    before the panic, and holds no epilogue: neither the return label
    line, nor [pop rbp], nor [ret]. *)
Theorem gen_x86_single_prologue_epilogue REGS n irv :
  let ret := fst (gen_label n) in
  (forall lines, fst (gen_x86 REGS n irv) = Done lines tt ->
   exists outs,
     Forall2 (fun ir o => gen_ir REGS ret ir = Done o tt) irv outs /\
     lines = (prologue ++ List.concat outs ++ epilogue ret)%list /\
     count_occ string_dec lines "  pop rbp" = 1 /\
     count_occ string_dec lines "  ret" = 1 /\
     (forall ir, In ir irv -> ir.(op) = Return ->
        exists i r, ir.(lhs) = Some i /\ nth_error REGS i = Some r /\
          gen_ir REGS ret ir = Done ["  mov rax, " ++ r; "  jmp " ++ ret] tt)) /\
  (forall lines p, fst (gen_x86 REGS n irv) = Abort lines p ->
   exists body,
     lines = (prologue ++ body)%list /\
     ~ In (ret ++ ":") lines /\ ~ In "  pop rbp" lines /\ ~ In "  ret" lines).
Proof.
  intros ret. split.
  - intros lines H.
    destruct (gen_x86_done _ _ _ _ H) as (body & Hb & ->).
    destruct (gen_body_done _ _ _ _ Hb) as (outs & HF & ->).
    exists outs. split; [exact HF|]. split; [reflexivity|].
    assert (Hpop : count_occ string_dec (List.concat outs) "  pop rbp" = 0)
      by (apply count_occ_not_In; eapply not_in_concat_outs; eauto).
    assert (Hret : count_occ string_dec (List.concat outs) "  ret" = 0)
      by (apply count_occ_not_In; eapply not_in_concat_outs; eauto).
    split; [|split].
    + rewrite !count_occ_app, Hpop. vm_compute. reflexivity.
    + rewrite !count_occ_app, Hret. vm_compute. reflexivity.
    + intros [o l r] Hin Hop; simpl in Hop; subst o.
      destruct (Forall2_in_l _ _ _ _ HF Hin) as (out & Hout).
      destruct l as [i|]; [|discriminate].
      unfold gen_ir, reg in Hout |- *; simpl in Hout |- *.
      destruct (nth_error REGS i) as [r'|] eqn:E; [|discriminate].
      exists i, r'. split; [reflexivity|]. split; [exact E|].
      try rewrite E. reflexivity.
  - intros lines p H.
    pose proof (gen_body_no_epilogue_line REGS ret irv) as Hb.
    destruct (gen_body REGS ret irv) as [b []|b p'] eqn:E.
    + assert (Hx : fst (gen_x86 REGS n irv) = Done (prologue ++ b ++ epilogue ret)%list tt).
      { unfold gen_x86, gen_label, ret in *. simpl in *. rewrite E. reflexivity. }
      rewrite Hx in H. discriminate H.
    + rewrite (gen_x86_abort _ _ _ _ _ E) in H. injection H as <- _.
      exists b. split; [reflexivity|].
      rewrite Forall_forall in Hb.
      split; [|split]; intros Hin; destruct Hin as [Hin|[Hin|Hin]];
        try (unfold ret, gen_label in Hin; simpl in Hin; discriminate Hin).
      * exact (proj2 (proj2 (Hb _ Hin)) (nat_to_string n ++ ":") eq_refl).
      * exact (proj1 (Hb _ Hin) eq_refl).
      * exact (proj1 (proj2 (Hb _ Hin)) eq_refl).
Qed.

Lemma gen_x86_single_prologue_epilogue_witness :
  fst (gen_x86 c1_regs 0 c1_irv) = Done c1_lines tt /\
  count_occ string_dec c1_lines "  pop rbp" = 1 /\
  count_occ string_dec c1_lines "  ret" = 1 /\
  fst (gen_x86 ["rdi"] 0 [MkIR Imm (Some 1) (Some 5)]) = Abort prologue (IndexOutOfBounds 1 1) /\
  ~ In "  ret" prologue.
Proof.
  assert (H1 : fst (gen_x86 c1_regs 0 c1_irv) = Done c1_lines tt) by reflexivity.
  assert (H2 : fst (gen_x86 ["rdi"] 0 [MkIR Imm (Some 1) (Some 5)])
               = Abort prologue (IndexOutOfBounds 1 1)) by reflexivity.
  destruct (proj1 (gen_x86_single_prologue_epilogue c1_regs 0 c1_irv) _ H1)
    as (outs & _ & _ & Hpop & Hret & _).
  destruct (proj2 (gen_x86_single_prologue_epilogue ["rdi"] 0 [MkIR Imm (Some 1) (Some 5)]) _ _ H2)
    as (body & _ & _ & _ & Hr).
  repeat split; assumption.
Defined.

(** C1, as stated, fails: an IR sequence that aborts (here a register id
    past the table) gets the prologue but no epilogue. *)
Lemma gen_x86_abort_has_no_epilogue :
  ~ (forall REGS n irv, exists body,
       fst (gen_x86 REGS n irv)
       = Done (prologue ++ body ++ epilogue (fst (gen_label n)))%list tt).
Proof.
  intro H.
  destruct (H ["rdi"] 0 [MkIR Imm (Some 1) (Some 5)]) as [body Hb].
  vm_compute in Hb. discriminate.
Qed.

(** C3. For [Div(dst, src)] the generator emits [mov rax, dst], [cqo],
    [div src], [mov dst, rax]: [div] is the unsigned division, so the
    sign extension done by [cqo] does not make it a signed one. With
    7 / -2 the emitted sequence yields 0 where the signed quotient is -3,
    and with -7 / 2 it faults where the signed quotient is -3. *)
Theorem gen_x86_div_emits_unsigned_div REGS ret d s rd rs :
  nth_error REGS d = Some rd -> nth_error REGS s = Some rs ->
  gen_ir REGS ret (MkIR Div (Some d) (Some s))
  = Done ["  mov rax, " ++ rd; "  cqo"; "  div " ++ rs; "  mov " ++ rd ++ ", rax"] tt
  /\ X86.div (X86.cqo 7) 7 (2 ^ 64 - 2) = Some 0%Z
  /\ X86.signed_quot 7 (2 ^ 64 - 2) = (2 ^ 64 - 3)%Z
  /\ X86.div (X86.cqo (2 ^ 64 - 7)) (2 ^ 64 - 7) 2 = None
  /\ X86.signed_quot (2 ^ 64 - 7) 2 = (2 ^ 64 - 3)%Z.
Proof.
  intros Hd Hs.
  split; [|vm_compute; repeat split; reflexivity].
  unfold gen_ir, reg, unwrap, print, oret; simpl. rewrite Hd, Hs. reflexivity.
Qed.

Lemma gen_x86_div_emits_unsigned_div_witness :
  nth_error c1_regs 0 = Some "rdi" /\ nth_error c1_regs 1 = Some "rsi" /\
  (gen_ir c1_regs ".L0" (MkIR Div (Some 0) (Some 1))
   = Done ["  mov rax, " ++ "rdi"; "  cqo"; "  div " ++ "rsi"; "  mov " ++ "rdi" ++ ", rax"] tt
   /\ X86.div (X86.cqo 7) 7 (2 ^ 64 - 2) = Some 0%Z
   /\ X86.signed_quot 7 (2 ^ 64 - 2) = (2 ^ 64 - 3)%Z
   /\ X86.div (X86.cqo (2 ^ 64 - 7)) (2 ^ 64 - 7) 2 = None
   /\ X86.signed_quot (2 ^ 64 - 7) 2 = (2 ^ 64 - 3)%Z).
Proof.
  split; [reflexivity|]. split; [reflexivity|].
  apply gen_x86_div_emits_unsigned_div; reflexivity.
Defined.

(** C6 (amended). When an instruction other than [Nop] and [Kill] indexes
    [REGS] with an id at or past its length, [gen_x86] aborts while
    processing that instruction: nothing of the later instructions and no
    epilogue is printed. [Nop] and [Kill] never index [REGS], so an
    out-of-range id on them does not abort. *)
Theorem gen_x86_aborts_on_out_of_range_register REGS n pre ir rest body i :
  gen_body REGS (fst (gen_label n)) pre = Done body tt ->
  In i (reg_operands ir) -> List.length REGS <= i ->
  (exists l p, gen_ir REGS (fst (gen_label n)) ir = Abort l p /\
     fst (gen_x86 REGS n (pre ++ ir :: rest)) = Abort (prologue ++ body ++ l)%list p) /\
  (forall o j r, (o = Nop \/ o = Kill) ->
     gen_ir REGS (fst (gen_label n)) (MkIR o (Some j) r) = Done [] tt).
Proof.
  intros Hpre Hin Hle. split.
  - destruct (gen_ir_out_of_range REGS (fst (gen_label n)) ir i Hin Hle) as (l & p & Hir).
    exists l, p. split; [exact Hir|].
    apply gen_x86_abort. eapply gen_body_abort_at; eauto.
  - intros o j r Ho. apply gen_ir_nop_kill; exact Ho.
Qed.

Lemma gen_x86_aborts_on_out_of_range_register_witness :
  gen_body ["rdi"] (fst (gen_label 0)) [MkIR Imm (Some 0) (Some 1)] = Done ["  mov rdi, 1"] tt /\
  In 1 (reg_operands (MkIR Add (Some 0) (Some 1))) /\ List.length ["rdi"] <= 1 /\
  ((exists l p, gen_ir ["rdi"] (fst (gen_label 0)) (MkIR Add (Some 0) (Some 1)) = Abort l p /\
     fst (gen_x86 ["rdi"] 0 ([MkIR Imm (Some 0) (Some 1)] ++ MkIR Add (Some 0) (Some 1) :: []))
     = Abort (prologue ++ ["  mov rdi, 1"] ++ l)%list p) /\
   (forall o j r, (o = Nop \/ o = Kill) ->
     gen_ir ["rdi"] (fst (gen_label 0)) (MkIR o (Some j) r) = Done [] tt)).
Proof.
  split; [reflexivity|]. split; [simpl; tauto|]. split; [simpl; lia|].
  apply (gen_x86_aborts_on_out_of_range_register ["rdi"] 0 [MkIR Imm (Some 0) (Some 1)]
           (MkIR Add (Some 0) (Some 1)) [] ["  mov rdi, 1"] 1);
    [reflexivity | simpl; tauto | simpl; lia].
Defined.

(** C6, as stated, fails: a [Kill] whose register id is past the table
    is skipped, and code generation completes. *)
Lemma gen_x86_kill_out_of_range_completes :
  ~ (forall REGS n irv,
       (exists ir i, In ir irv /\ ir.(lhs) = Some i /\ List.length REGS <= i) ->
       exists l p, fst (gen_x86 REGS n irv) = Abort l p).
Proof.
  intro H.
  destruct (H ["rdi"] 0 [MkIR Kill (Some 1) None]) as (l & p & Hx).
  - exists (MkIR Kill (Some 1) None), 1. simpl. split; [tauto|]. split; [reflexivity | lia].
  - vm_compute in Hx. discriminate.
Qed.

(** C10. [gen_x86] unwraps [lhs] before dispatching on the opcode: an
    instruction without [lhs], whatever its opcode ([Nop] and [Kill]
    included), aborts as soon as it is reached, with nothing printed for it
    or after it, although the [Nop] and [Kill] branches never use [lhs]. *)
Theorem gen_x86_unwraps_lhs_before_dispatch REGS n pre ir rest body :
  gen_body REGS (fst (gen_label n)) pre = Done body tt ->
  ir.(lhs) = None ->
  gen_ir REGS (fst (gen_label n)) ir = Abort [] UnwrapNone /\
  fst (gen_x86 REGS n (pre ++ ir :: rest)) = Abort (prologue ++ body)%list UnwrapNone /\
  (forall o j r, (o = Nop \/ o = Kill) ->
     gen_ir REGS (fst (gen_label n)) (MkIR o (Some j) r) = Done [] tt).
Proof.
  intros Hpre Hl.
  assert (Hir : gen_ir REGS (fst (gen_label n)) ir = Abort [] UnwrapNone)
    by (destruct ir as [o l r]; simpl in Hl; subst l; reflexivity).
  split; [exact Hir|]. split.
  - rewrite <- (app_nil_r body). apply gen_x86_abort.
    eapply gen_body_abort_at; eauto.
  - intros o j r Ho. apply gen_ir_nop_kill; exact Ho.
Qed.

Lemma gen_x86_unwraps_lhs_before_dispatch_witness :
  gen_body ["rdi"] (fst (gen_label 0)) [MkIR Imm (Some 0) (Some 1)] = Done ["  mov rdi, 1"] tt /\
  (MkIR Kill None None).(lhs) = None /\
  (gen_ir ["rdi"] (fst (gen_label 0)) (MkIR Kill None None) = Abort [] UnwrapNone /\
   fst (gen_x86 ["rdi"] 0 ([MkIR Imm (Some 0) (Some 1)] ++ MkIR Kill None None :: []))
   = Abort (prologue ++ ["  mov rdi, 1"])%list UnwrapNone /\
   (forall o j r, (o = Nop \/ o = Kill) ->
      gen_ir ["rdi"] (fst (gen_label 0)) (MkIR o (Some j) r) = Done [] tt)).
Proof.
  split; [reflexivity|]. split; [reflexivity|].
  apply gen_x86_unwraps_lhs_before_dispatch; reflexivity.
Defined.

End CodegenFacts.

(* ================================================================== *)
(** * Properties of the parser *)

Module ParseFacts.
Import Parse ParseSpec ParseExamples.

Section Closure.
Variable Q : forall A, PM A -> Prop.
Hypothesis pr_ret : forall A (a : A), Q A (ret a).
Hypothesis pr_peek : Q _ peek.
Hypothesis pr_advance : Q _ advance.
Hypothesis pr_at_end : Q _ at_end.
Hypothesis pr_panic : forall A p, Q A (panic p).
Hypothesis pr_no_fuel : forall A, Q A no_fuel.
Hypothesis pr_bind : forall A B (m : PM A) (k : A -> PM B),
  Q A m -> (forall a, Q B (k a)) -> Q B (bind m k).

Ltac walk IH :=
  repeat first
    [ progress intros
    | apply pr_bind
    | apply pr_ret | apply pr_peek | apply pr_advance | apply pr_at_end
    | apply pr_panic | apply pr_no_fuel
    | solve [eauto using IH]
    | match goal with
      | |- context [if ?b then _ else _] => destruct b
      | |- context [match ?x with _ => _ end] =>
          match x with
          | context [bind] => fail 1
          | _ => destruct x
          end
      end
    | progress cbv zeta ].

Lemma pr_consume k : Q _ (consume k).
Proof. unfold consume. walk I. Qed.

Lemma pr_expect k : Q _ (expect k).
Proof. unfold expect. walk I. Qed.

Lemma pr_ctype_ptrs f t : Q _ (ctype_ptrs f t).
Proof.
  revert t; induction f as [|f IH]; intro t; cbn [ctype_ptrs];
    [apply pr_no_fuel|]. pose proof (pr_consume TokenType.Mul). walk IH.
Qed.

Lemma pr_ctype f : Q _ (ctype f).
Proof.
  unfold ctype. pose proof pr_ctype_ptrs. walk I.
Qed.

Lemma pr_all_parsers f : all_parsers Q f.
Proof.
  induction f as [|f IH].
  - repeat split; intros; apply pr_no_fuel.
  - destruct IH as (Hprimary & Hcall_args & Hpostfix & Hpostfix_loop & Hunary & Hmul &
      Hmul_loop & Hadd & Hadd_loop & Hrel & Hrel_loop & Hequality & Hlogand &
      Hlogand_loop & Hlogor & Hlogor_loop & Hassign & Hread_dims & Hread_array &
      Hdecl & Hexpr_stmt & Hstmt & Hstmt_list & Hcompound_stmt).
    pose proof pr_consume. pose proof pr_expect. pose proof pr_ctype. pose proof pr_ctype_ptrs.
    repeat split; intros;
      cbn [primary call_args postfix postfix_loop unary mul mul_loop add add_loop
           rel rel_loop equality logand logand_loop logor logor_loop assign
           read_dims read_array decl expr_stmt stmt stmt_list compound_stmt];
      walk I.
Qed.
End Closure.

Lemma suf_ret A (a : A) : Suf (ret a).
Proof. intros s b s' H; injection H as <- <-; exists []; reflexivity. Qed.
Lemma suf_peek : Suf peek.
Proof. intros [|t s] b s' H; inversion H; subst; exists []; reflexivity. Qed.
Lemma suf_advance : Suf advance.
Proof. intros [|t s] b s' H; inversion H; subst; [exists [] | exists [t]]; reflexivity. Qed.
Lemma suf_at_end : Suf at_end.
Proof. intros s b s' H; inversion H; subst; exists []; reflexivity. Qed.
Lemma suf_panic A p : Suf (A := A) (panic p).
Proof. intros s b s' H; discriminate. Qed.
Lemma suf_no_fuel A : Suf (A := A) no_fuel.
Proof. intros s b s' H; discriminate. Qed.
Lemma suf_bind A B (m : PM A) (k : A -> PM B) :
  Suf m -> (forall a, Suf (k a)) -> Suf (bind m k).
Proof.
  intros Hm Hk s b s' H. unfold bind in H.
  destruct (m s) as [a s1| |] eqn:E; try discriminate.
  destruct (Hm _ _ _ E) as [x ->]. destruct (Hk _ _ _ _ H) as [y ->].
  exists (x ++ y). apply app_assoc.
Qed.

Lemma suf_all f : all_parsers (@Suf) f.
Proof.
  apply pr_all_parsers; auto using suf_ret, suf_peek, suf_advance, suf_at_end,
    suf_panic, suf_no_fuel, suf_bind.
Qed.

Lemma suffix_not_longer {X} (x l : list X) : List.length (x ++ l) >= List.length l.
Proof. rewrite length_app; lia. Qed.

Lemma cons_not_suffix {X} (x : list X) t ts : ts <> x ++ t :: ts.
Proof.
  intro H. apply (f_equal (@List.length X)) in H.
  rewrite length_app in H; simpl in H; lia.
Qed.

Lemma self_suffix_nil {X} (c2 : list X) l : l = c2 ++ l -> c2 = [].
Proof.
  intro H. apply (f_equal (@List.length X)) in H. rewrite length_app in H.
  destruct c2; [reflexivity | simpl in H; lia].
Qed.

Lemma frame_ret R A (a : A) : Frame R (ret a).
Proof.
  intros c c2 t t' ts ts' b _ H. injection H as <- E.
  apply app_inv_tail in E as ->. reflexivity.
Qed.

Lemma frame_advance R : Frame R advance.
Proof.
  intros [|x c] c2 t t' ts ts' b _ H; simpl in H; injection H as <- E.
  - exfalso; exact (cons_not_suffix c2 t ts E).
  - apply app_inv_tail in E as ->. reflexivity.
Qed.

Lemma frame_at_end R : Frame R at_end.
Proof.
  intros c c2 t t' ts ts' b _ H. unfold at_end in *. injection H as <- E.
  apply app_inv_tail in E; subst. destruct c2; reflexivity.
Qed.

Lemma frame_panic R A p : Frame R (A := A) (panic p).
Proof. intros c c2 t t' ts ts' b _ H; discriminate. Qed.
Lemma frame_no_fuel R A : Frame R (A := A) no_fuel.
Proof. intros c c2 t t' ts ts' b _ H; discriminate. Qed.

Lemma frame_peek_eq : Frame eq peek.
Proof.
  intros [|x c] c2 t t' ts ts' b <- H; simpl in H; injection H as <- E.
  - apply self_suffix_nil in E; subst; reflexivity.
  - change (x :: c ++ t :: ts) with ((x :: c) ++ t :: ts) in E.
    apply app_inv_tail in E; subst; reflexivity.
Qed.

Lemma frame_bind R A B (m : PM A) (k : A -> PM B) :
  Frame R m -> (forall a, Frame R (k a)) -> (forall a, Suf (k a)) ->
  Frame R (bind m k).
Proof.
  intros Hm Hk Hs c c2 t t' ts ts' b HR H. unfold bind in *.
  destruct (m (c ++ t :: ts)) as [a s| |] eqn:E; try discriminate.
  destruct (Hs _ _ _ _ H) as [x ->].
  rewrite app_assoc in E, H.
  rewrite (Hm _ _ _ _ _ _ _ HR E).
  exact (Hk _ _ _ _ _ _ _ _ HR H).
Qed.

Lemma sfe_all f : all_parsers (@SFe) f.
Proof.
  apply pr_all_parsers; unfold SFe.
  - split; [apply suf_ret | apply frame_ret].
  - split; [apply suf_peek | apply frame_peek_eq].
  - split; [apply suf_advance | apply frame_advance].
  - split; [apply suf_at_end | apply frame_at_end].
  - split; [apply suf_panic | apply frame_panic].
  - split; [apply suf_no_fuel | apply frame_no_fuel].
  - intros A B m k [Hs Hf] Hk. split.
    + apply suf_bind; [exact Hs | intro a; apply Hk].
    + apply frame_bind; [exact Hf | intro a; apply Hk | intro a; apply Hk].
Qed.

Lemma suf_consume k : Suf (consume k).
Proof. apply pr_consume; auto using suf_ret, suf_peek, suf_advance, suf_at_end, suf_panic, suf_no_fuel, suf_bind. Qed.
Lemma suf_expect k : Suf (expect k).
Proof. apply pr_expect; auto using suf_ret, suf_peek, suf_advance, suf_at_end, suf_panic, suf_no_fuel, suf_bind. Qed.
Lemma sfe_consume k : SFe (consume k).
Proof. split; [apply suf_consume|]. unfold consume. apply frame_bind; [apply frame_peek_eq| |].
  - intro t. destruct (TokenType.eqb _ _); [apply frame_bind; [apply frame_advance|intros; apply frame_ret|intros; apply suf_ret]|apply frame_ret].
  - intro t. destruct (TokenType.eqb _ _); [apply suf_bind; [apply suf_advance|intros; apply suf_ret]|apply suf_ret].
Qed.

Lemma strict_expect_bind B k (m : PM B) : Suf m -> Strict (bind (expect k) (fun _ => m)).
Proof.
  intros Hm s b s' H. unfold bind, expect, peek, advance, panic in H.
  destruct s as [|t s]; [discriminate|]. cbn in H.
  destruct (TokenType.eqb _ _); [|discriminate]. simpl in H.
  destruct (Hm _ _ _ H) as [x ->]. simpl. rewrite length_app. lia.
Qed.

Lemma strict_bind_r A B (m : PM A) (k : A -> PM B) :
  Suf m -> (forall a, Strict (k a)) -> Strict (bind m k).
Proof.
  intros Hm Hk s b s' H. unfold bind in H.
  destruct (m s) as [a s1| |] eqn:E; try discriminate.
  destruct (Hm _ _ _ E) as [x ->]. specialize (Hk _ _ _ _ H).
  rewrite length_app. lia.
Qed.

Lemma frame_expect R k : Frame R (expect k).
Proof.
  intros [|x c] c2 t t' ts ts' b HR H; unfold expect, bind, peek, advance, panic in *;
    simpl in H |- *.
  - destruct (TokenType.eqb _ _); [|discriminate].
    injection H as _ E. exfalso; exact (cons_not_suffix c2 t ts E).
  - destruct (TokenType.eqb _ _); [|discriminate].
    injection H as <- E. apply app_inv_tail in E as ->. reflexivity.
Qed.

Lemma frame_peek_bind R B (k : Token -> PM B) :
  (forall t, Frame R (k t)) -> (forall t, Suf (k t)) ->
  (forall t t' ts ts' a, R t t' -> k t (t :: ts) = Ok a (t :: ts) ->
     k t' (t' :: ts') = Ok a (t' :: ts')) ->
  Frame R (bind peek k).
Proof.
  intros Hk Hs Hb [|x c] c2 t t' ts ts' b HR H; unfold bind, peek in *; simpl in H |- *.
  - destruct (Hs _ _ _ _ H) as [y Ey].
    assert (y ++ c2 = []) as Hn by (apply (self_suffix_nil _ (t :: ts)); rewrite <- app_assoc; exact Ey).
    apply app_eq_nil in Hn as [_ ->]. simpl in *. eapply Hb; eauto.
  - change (x :: c ++ t :: ts) with ((x :: c) ++ t :: ts) in H.
    change (x :: c ++ t' :: ts') with ((x :: c) ++ t' :: ts').
    eapply Hk; eauto.
Qed.

Ltac app_norm :=
  repeat progress (simpl in *; rewrite <- ?app_assoc in *).

Lemma frame_bind_eq_strict R A B (m : PM A) (k : A -> PM B) :
  SFe m -> (forall a, Frame R (k a)) -> (forall a, Suf (k a)) ->
  (forall a, Strict (k a)) -> Frame R (bind m k).
Proof.
  intros [Hms Hmf] Hk Hs Hst c c2 t t' ts ts' b HR H. unfold bind in *.
  destruct (m (c ++ t :: ts)) as [a s| |] eqn:E; try discriminate.
  destruct (Hs _ _ _ _ H) as [x ->].
  pose proof (Hst _ _ _ _ H) as Hlt.
  destruct x as [|x0 x]; [simpl in Hlt; lia|].
  destruct (Hms _ _ _ E) as [c1 Ec].
  assert (Hc : c = c1 ++ x0 :: x ++ c2).
  { apply (app_inv_tail (t :: ts)). rewrite Ec. rewrite <- !app_assoc. simpl. rewrite <- !app_assoc. reflexivity. }
  subst c.
  assert (E' : m (c1 ++ x0 :: (x ++ c2 ++ t' :: ts')) = Ok a ([] ++ x0 :: (x ++ c2 ++ t' :: ts'))).
  { apply (Hmf c1 [] x0 x0 (x ++ c2 ++ t :: ts)); [reflexivity|].
    app_norm. exact E. }
  app_norm. rewrite E'.
  replace (x0 :: x ++ c2 ++ t' :: ts') with ((x0 :: x ++ c2) ++ t' :: ts')
    by (app_norm; reflexivity).
  apply (Hk a (x0 :: x ++ c2) c2 t t' ts ts' b HR).
  app_norm. exact H.
Qed.

Lemma eqb_refl k : TokenType.eqb k k = true.
Proof. unfold TokenType.eqb. destruct (TokenType.eq_dec k k); congruence. Qed.

Lemma eqb_eq k k' : TokenType.eqb k k' = true -> k = k'.
Proof. unfold TokenType.eqb. destruct (TokenType.eq_dec k k'); congruence. Qed.

Lemma ends_add_not t k : ends_add t = true -> In k add_continuations ->
  TokenType.eqb t.(ty) k = false.
Proof.
  unfold ends_add. intros H Hin. apply negb_true_iff in H.
  destruct (TokenType.eqb (ty t) k) eqn:E; [|reflexivity].
  rewrite <- H. symmetry. apply existsb_exists. eauto.
Qed.

Lemma frame_consume_end k : In k add_continuations -> Frame both_end_add (consume k).
Proof.
  intros Hk [|x c] c2 t t' ts ts' b [Ht Ht'] H; unfold consume, bind, peek, advance, ret in *;
    simpl in H |- *.
  - rewrite (ends_add_not t k Ht Hk) in H. rewrite (ends_add_not t' k Ht' Hk).
    injection H as <- E. apply self_suffix_nil in E; subst; reflexivity.
  - destruct (TokenType.eqb _ _); injection H as <- E;
      first [apply (app_inv_tail _ (x :: c) c2) in E | apply app_inv_tail in E];
      subst; reflexivity.
Qed.

Lemma bind_advance_cons B (k : unit -> PM B) t ts : bind advance k (t :: ts) = k tt ts.
Proof. reflexivity. Qed.

Lemma suf_contra B (m : PM B) t ts a : Suf m -> m ts = Ok a (t :: ts) -> False.
Proof. intros Hm H. destruct (Hm _ _ _ H) as [x Ex]. exact (cons_not_suffix x t ts Ex). Qed.

Ltac split_match :=
  match goal with
  | |- context [if ?b then _ else _] => destruct b
  | |- context [match ?x with _ => _ end] =>
      match x with
      | context [bind] => fail 1
      | _ => destruct x
      end
  end.

Ltac suf_tac :=
  repeat first
    [ progress intros
    | apply suf_bind
    | apply suf_ret | apply suf_peek | apply suf_advance | apply suf_at_end
    | apply suf_panic | apply suf_no_fuel | apply suf_consume | apply suf_expect
    | solve [eauto]
    | split_match
    | progress cbv zeta ].

Ltac strict_tac :=
  repeat first
    [ progress intros
    | apply strict_expect_bind; suf_tac
    | apply strict_bind_r; [suf_tac|]
    | progress cbv zeta ].

Ltac rewrite_ends :=
  repeat match goal with
  | H : ends_add ?t = true |- context [TokenType.eqb (ty ?t) ?k] =>
      rewrite (ends_add_not t k H ltac:(simpl; tauto))
  | H : ends_add ?t = true, H' : context [TokenType.eqb (ty ?t) ?k] |- _ =>
      rewrite (ends_add_not t k H ltac:(simpl; tauto)) in H'
  end.

Ltac boundary_tac :=
  let t := fresh "t" in let t' := fresh "t'" in
  let Ht := fresh "Ht" in let Ht' := fresh "Ht'" in let H := fresh "H" in
  intros t t' ? ? ? [Ht Ht'] H; rewrite_ends; simpl in H |- *;
  first
    [ rewrite bind_advance_cons in H; exfalso; eapply suf_contra; [|exact H]; suf_tac
    | injection H as ?; subst; reflexivity
    | exact H ].

Ltac frame_walk :=
  repeat first
    [ progress intros
    | apply frame_ret | apply frame_advance | apply frame_at_end
    | apply frame_panic | apply frame_no_fuel | apply frame_expect
    | apply frame_consume_end; simpl; tauto
    | solve [eauto]
    | match goal with
      | |- Frame _ (bind peek _) =>
          apply frame_peek_bind; [ | suf_tac | solve [boundary_tac] ]
      | |- Frame _ (bind (assign _) _) =>
          apply frame_bind_eq_strict; [ solve [eauto] | | suf_tac | strict_tac ]
      | |- Frame _ (bind (call_args _ _) _) =>
          apply frame_bind_eq_strict; [ solve [eauto] | | suf_tac | strict_tac ]
      | |- Frame _ (bind (compound_stmt _) _) =>
          apply frame_bind_eq_strict; [ solve [eauto] | | suf_tac | strict_tac ]
      | |- Frame _ (bind _ _) => apply frame_bind; [ | | suf_tac ]
      end
    | split_match
    | progress cbv zeta ].

Lemma add_layer_frame_all f : add_layer_frame f.
Proof.
  induction f as [|f IH].
  - repeat split; intros; apply frame_no_fuel.
  - destruct IH as (Fprimary & Fpostfix & Fpostfix_loop & Funary & Fmul & Fmul_loop & Fadd & Fadd_loop).
    destruct (suf_all f) as (Sprimary & Scall_args & Spostfix & Spostfix_loop & Sunary & Smul &
      Smul_loop & Sadd & Sadd_loop & Srel & Srel_loop & Sequality & Slogand &
      Slogand_loop & Slogor & Slogor_loop & Sassign & Sread_dims & Sread_array &
      Sdecl & Sexpr_stmt & Sstmt & Sstmt_list & Scompound_stmt).
    destruct (sfe_all f) as (Eprimary & Ecall_args & Epostfix & Epostfix_loop & Eunary & Emul &
      Emul_loop & Eadd & Eadd_loop & Erel & Erel_loop & Eequality & Elogand &
      Elogand_loop & Elogor & Elogor_loop & Eassign & Eread_dims & Eread_array &
      Edecl & Eexpr_stmt & Estmt & Estmt_list & Ecompound_stmt).
    repeat split; intros;
      cbn [primary postfix postfix_loop unary mul mul_loop add add_loop];
      frame_walk.
Qed.

Lemma mono_refl A (m : PM A) : Mono m m.
Proof. intro s; right; reflexivity. Qed.

Lemma mono_no_fuel A (m : PM A) : Mono no_fuel m.
Proof. intro s; left; reflexivity. Qed.

Lemma mono_bind A B (m1 m2 : PM A) (k1 k2 : A -> PM B) :
  Mono m1 m2 -> (forall a, Mono (k1 a) (k2 a)) -> Mono (bind m1 k1) (bind m2 k2).
Proof.
  intros Hm Hk s. unfold bind. destruct (Hm s) as [E|E]; rewrite E; [left; reflexivity|].
  destruct (m2 s) as [a s'| |]; [apply Hk | right | left]; reflexivity.
Qed.

Ltac mono_walk :=
  repeat first
    [ progress intros
    | apply mono_no_fuel
    | solve [eauto]
    | apply mono_bind
    | apply mono_refl
    | split_match
    | progress cbv zeta ].

Lemma mono_ctype_ptrs f g t : f <= g -> Mono (ctype_ptrs f t) (ctype_ptrs g t).
Proof.
  revert g t; induction f as [|f IH]; intros g t Hle; [apply mono_no_fuel|].
  destruct g as [|g]; [lia|]. cbn [ctype_ptrs].
  assert (forall t, Mono (ctype_ptrs f t) (ctype_ptrs g t)) by (intro; apply IH; lia).
  mono_walk.
Qed.

Lemma mono_ctype f g : f <= g -> Mono (ctype f) (ctype g).
Proof.
  intro Hle. unfold ctype.
  assert (forall t, Mono (ctype_ptrs f t) (ctype_ptrs g t)) by (intro; apply mono_ctype_ptrs; lia).
  mono_walk.
Qed.

Lemma mono_all f g : f <= g -> mono_parsers f g.
Proof.
  revert g; induction f as [|f IH]; intros g Hle.
  - repeat split; intros; apply mono_no_fuel.
  - destruct g as [|g]; [lia|].
    destruct (IH g ltac:(lia)) as (Hprimary & Hcall_args & Hpostfix & Hpostfix_loop & Hunary & Hmul &
      Hmul_loop & Hadd & Hadd_loop & Hrel & Hrel_loop & Hequality & Hlogand &
      Hlogand_loop & Hlogor & Hlogor_loop & Hassign & Hread_dims & Hread_array &
      Hdecl & Hexpr_stmt & Hstmt & Hstmt_list & Hcompound_stmt).
    pose proof (mono_ctype f g ltac:(lia)).
    repeat split; intros;
      cbn [primary call_args postfix postfix_loop unary mul mul_loop add add_loop
           rel rel_loop equality logand logand_loop logor logor_loop assign
           read_dims read_array decl expr_stmt stmt stmt_list compound_stmt];
      mono_walk.
Qed.

Lemma post_ret A `{Good A} (a : A) : good a -> Post (ret a).
Proof. intros Ha s b s' E; injection E as <- _; exact Ha. Qed.
Lemma post_panic A `{Good A} p : Post (A := A) (panic p).
Proof. intros s b s' E; discriminate. Qed.
Lemma post_no_fuel A `{Good A} : Post (A := A) no_fuel.
Proof. intros s b s' E; discriminate. Qed.
Lemma post_peek : Post peek.
Proof. intros s b s' E; exact I. Qed.
Lemma post_advance : Post advance.
Proof. intros s b s' E; exact I. Qed.
Lemma post_at_end : Post at_end.
Proof. intros s b s' E; exact I. Qed.
Lemma post_consume k : Post (consume k).
Proof. intros s b s' E; exact I. Qed.
Lemma post_expect k : Post (expect k).
Proof. intros s b s' E; exact I. Qed.
Lemma post_ctype f : Post (ctype f).
Proof. intros s b s' E; exact I. Qed.
Lemma post_read_dims f v : Post (read_dims f v).
Proof. intros s b s' E; exact I. Qed.
Lemma post_read_array f t : Post (read_array f t).
Proof. intros s b s' E; exact I. Qed.
Lemma post_bind A B `{Good A} `{Good B} (m : PM A) (k : A -> PM B) :
  Post m -> (forall a, good a -> Post (k a)) -> Post (bind m k).
Proof.
  intros Hm Hk s b s' E. unfold bind in E.
  destruct (m s) as [a s1| |] eqn:Em; try discriminate.
  exact (Hk a (Hm _ _ _ Em) _ _ _ E).
Qed.

Ltac good_leaf :=
  repeat match goal with o : option Node |- _ => destruct o end;
  repeat match goal with |- good (if ?b then _ else _) => destruct b end;
  unfold good, good_node, good_list, good_option in *; simpl in *;
  rewrite ?forallb_app; simpl;
  repeat match goal with
  | H : ?x = true |- context [?x] => rewrite H
  end; simpl;
  first
    [ reflexivity
    | match goal with
      | |- context [TokenType.eqb (ty ?t) _] =>
          destruct (ty t); simpl in *; try discriminate; reflexivity
      end ].

Ltac post_walk :=
  repeat first
    [ progress intros
    | solve [eauto]
    | match goal with
      | H : forall l, good l -> Post (?F l) |- Post (?F ?x) => apply H; good_leaf
      end
    | match goal with
      | |- Post (bind _ _) => eapply post_bind
      | |- Post (ret _) => apply post_ret
      | |- Post (panic _) => apply post_panic
      | |- Post no_fuel => apply post_no_fuel
      | |- Post peek => apply post_peek
      | |- Post advance => apply post_advance
      | |- Post at_end => apply post_at_end
      | |- Post (consume _) => apply post_consume
      | |- Post (expect _) => apply post_expect
      | |- Post (ctype _) => apply post_ctype
      | |- Post (read_dims _ _) => apply post_read_dims
      | |- Post (read_array _ _) => apply post_read_array
      | |- Post (if ?b then _ else _) => destruct b eqn:?
      | |- Post (match ?x with _ => _ end) =>
          match x with
          | context [bind] => fail 1
          | _ => destruct x eqn:?
          end
      | |- Post (let _ := _ in _) => cbv zeta
      end ].

Lemma post_all f : post_parsers f.
Proof.
  induction f as [|f IH].
  - repeat split; intros; apply post_no_fuel.
  - destruct IH as (Hprimary & Hcall_args & Hpostfix & Hpostfix_loop & Hunary & Hmul &
      Hmul_loop & Hadd & Hadd_loop & Hrel & Hrel_loop & Hequality & Hlogand &
      Hlogand_loop & Hlogor & Hlogor_loop & Hassign &
      Hdecl & Hexpr_stmt & Hstmt & Hstmt_list & Hcompound_stmt).
    repeat split; intros;
      cbn [primary call_args postfix postfix_loop unary mul mul_loop add add_loop
           rel rel_loop equality logand logand_loop logor logor_loop assign
           read_dims read_array decl expr_stmt stmt stmt_list compound_stmt];
      post_walk.
  all: good_leaf.
Qed.

Section Top.
Variable size_of : Type_ -> nat.

Lemma post_param f : Post (param f).
Proof. unfold param. post_walk; try good_leaf. Qed.

Lemma post_param_list f l : good l -> Post (param_list f l).
Proof.
  revert l; induction f as [|f IH]; intros l Hl; cbn [param_list];
    [apply post_no_fuel|].
  pose proof (post_param f). post_walk; try good_leaf.
Qed.

Lemma post_toplevel f : Post (toplevel size_of f).
Proof.
  unfold toplevel. destruct (post_all f) as (_ & _ & _ & _ & _ & _ & _ & _ & _ & _ & _ & _ & _ & _ & _ & _ & _ & _ & _ & _ & _ & Hc).
  pose proof (post_param f). pose proof (post_param_list f).
  post_walk; try good_leaf.
Qed.

Lemma post_parse_loop f l : good l -> Post (parse_loop size_of f l).
Proof.
  revert l; induction f as [|f IH]; intros l Hl; cbn [parse_loop];
    [apply post_no_fuel|].
  pose proof (post_toplevel f). post_walk; try good_leaf.
Qed.
End Top.

Lemma mono_result A (m1 m2 : PM A) s r : Mono m1 m2 -> m1 s = r -> r <> OutOfFuel -> m2 s = r.
Proof. intros H E Hr. destruct (H s) as [E'|E']; congruence. Qed.

Section TopMono.
Variable size_of : Type_ -> nat.

Lemma mono_param f g : f <= g -> Mono (param f) (param g).
Proof. intro Hle. unfold param. pose proof (mono_ctype f g Hle). mono_walk. Qed.

Lemma mono_param_list f g l : f <= g -> Mono (param_list f l) (param_list g l).
Proof.
  revert g l; induction f as [|f IH]; intros g l Hle; [apply mono_no_fuel|].
  destruct g as [|g]; [lia|]. cbn [param_list].
  pose proof (mono_param f g ltac:(lia)).
  assert (forall l, Mono (param_list f l) (param_list g l)) by (intro; apply IH; lia).
  mono_walk.
Qed.

Lemma mono_toplevel f g : f <= g -> Mono (toplevel size_of f) (toplevel size_of g).
Proof.
  intro Hle. unfold toplevel.
  destruct (mono_all f g Hle) as (_ & _ & _ & _ & _ & _ & _ & _ & _ & _ & _ & _ & _ & _ & _ & _ & _ & _ & Hra & _ & _ & _ & _ & Hc).
  pose proof (mono_ctype f g Hle). pose proof (mono_param f g Hle).
  pose proof (fun l => mono_param_list f g l Hle).
  mono_walk.
Qed.

Lemma mono_parse_loop f g l : f <= g -> Mono (parse_loop size_of f l) (parse_loop size_of g l).
Proof.
  revert g l; induction f as [|f IH]; intros g l Hle; [apply mono_no_fuel|].
  destruct g as [|g]; [lia|]. cbn [parse_loop].
  pose proof (mono_toplevel f g ltac:(lia)).
  assert (forall l, Mono (parse_loop size_of f l) (parse_loop size_of g l)) by (intro; apply IH; lia).
  mono_walk.
Qed.
End TopMono.

(* ------------------------------------------------------------------ *)
(** ** Concrete runs *)

Lemma mono_all_le f g : f <= g -> mono_parsers f g.
Proof. apply mono_all. Qed.

Ltac mono_of Hle :=
  destruct (mono_all_le _ _ Hle) as (Mprimary & Mcall_args & Mpostfix & Mpostfix_loop & Munary & Mmul &
    Mmul_loop & Madd & Madd_loop & Mrel & Mrel_loop & Mequality & Mlogand &
    Mlogand_loop & Mlogor & Mlogor_loop & Massign & Mread_dims & Mread_array &
    Mdecl & Mexpr_stmt & Mstmt & Mstmt_list & Mcompound_stmt).

Lemma add_frame_at f c n t rest :
  ends_add t = true ->
  add f (c ++ [tk_semi]) = Ok n [tk_semi] ->
  add f (c ++ t :: rest) = Ok n (t :: rest).
Proof.
  intros Ht H.
  destruct (add_layer_frame_all f) as (_ & _ & _ & _ & _ & _ & Fadd & _).
  apply (Fadd c [] tk_semi t [] rest n); [split; [reflexivity | exact Ht] | exact H].
Qed.

(** C9. Multiplication binds tighter than addition, and [+] and [-] are
    left-associative: [add] parses [1+2*3] as [Plus(1, Mul(2,3))],
    [2*3+1] as [Plus(Mul(2,3), 1)] and [1-2-3] as [Minus(Minus(1,2), 3)],
    consuming exactly these tokens whatever token [t] follows them, as
    long as [t] cannot continue the expression; the statements [1+2*3;],
    [2*3+1;] and [1-2-3;] are the expression statements of these trees. *)
Theorem add_precedence_and_left_assoc fuel t rest :
  25 <= fuel -> ends_add t = true ->
  add fuel ([tk_num 1 "1"; tk_plus; tk_num 2 "2"; tk_star; tk_num 3 "3"] ++ t :: rest)
  = Ok (new_binop TokenType.Plus (num_node 1) (new_binop TokenType.Mul (num_node 2) (num_node 3)))
       (t :: rest) /\
  add fuel ([tk_num 2 "2"; tk_star; tk_num 3 "3"; tk_plus; tk_num 1 "1"] ++ t :: rest)
  = Ok (new_binop TokenType.Plus (new_binop TokenType.Mul (num_node 2) (num_node 3)) (num_node 1))
       (t :: rest) /\
  add fuel ([tk_num 1 "1"; tk_minus; tk_num 2 "2"; tk_minus; tk_num 3 "3"] ++ t :: rest)
  = Ok (new_binop TokenType.Minus (new_binop TokenType.Minus (num_node 1) (num_node 2)) (num_node 3))
       (t :: rest) /\
  stmt fuel [tk_num 1 "1"; tk_plus; tk_num 2 "2"; tk_star; tk_num 3 "3"; tk_semi]
  = Ok (new_node (NodeType.ExprStmt (new_binop TokenType.Plus (num_node 1)
          (new_binop TokenType.Mul (num_node 2) (num_node 3))))) [] /\
  stmt fuel [tk_num 2 "2"; tk_star; tk_num 3 "3"; tk_plus; tk_num 1 "1"; tk_semi]
  = Ok (new_node (NodeType.ExprStmt (new_binop TokenType.Plus
          (new_binop TokenType.Mul (num_node 2) (num_node 3)) (num_node 1)))) [] /\
  stmt fuel [tk_num 1 "1"; tk_minus; tk_num 2 "2"; tk_minus; tk_num 3 "3"; tk_semi]
  = Ok (new_node (NodeType.ExprStmt (new_binop TokenType.Minus
          (new_binop TokenType.Minus (num_node 1) (num_node 2)) (num_node 3)))) [].
Proof.
  intros Hf Ht. mono_of Hf.
  repeat split.
  1-3: apply (mono_result _ (add 25) (add fuel)); [exact Madd | | discriminate];
       apply add_frame_at; [exact Ht | vm_compute; reflexivity].
  all: apply (mono_result _ (stmt 25) (stmt fuel)); [exact Mstmt | vm_compute; reflexivity | discriminate].
Qed.

Lemma add_precedence_and_left_assoc_witness :
  25 <= 25 /\ ends_add tk_semi = true /\
  add 25 ([tk_num 1 "1"; tk_plus; tk_num 2 "2"; tk_star; tk_num 3 "3"] ++ [tk_semi])
  = Ok (new_binop TokenType.Plus (num_node 1) (new_binop TokenType.Mul (num_node 2) (num_node 3)))
       [tk_semi].
Proof.
  split; [lia|]. split; [reflexivity|].
  apply (add_precedence_and_left_assoc 25 tk_semi []); [lia | reflexivity].
Defined.

(** A run reached at fuel [N] is the run at every larger fuel. *)
Ltac at_fuel M N :=
  match goal with
  | |- ?F ?fuel ?s = ?r =>
      apply (mono_result _ (F N) (F fuel) s r); [exact M | vm_compute; reflexivity | discriminate]
  end.

Lemma res_beyond A (F : nat -> PM A) (N : nat) s r :
  (forall f g, f <= g -> Mono (F f) (F g)) ->
  F N s = r -> r <> OutOfFuel ->
  forall fuel, F fuel s = OutOfFuel \/ F fuel s = r.
Proof.
  intros HM HN Hr fuel.
  destruct (Nat.le_ge_cases fuel N) as [Hle|Hle].
  - destruct (HM _ _ Hle s) as [E|E]; [left; exact E | right; congruence].
  - right. apply (mono_result _ (F N) (F fuel)); [apply HM; exact Hle | exact HN | exact Hr].
Qed.

Lemma mono_assign f g : f <= g -> Mono (assign f) (assign g).
Proof. intros H. destruct (mono_all_le _ _ H) as (_&_&_&_&_&_&_&_&_&_&_&_&_&_&_&_&M&_). exact M. Qed.

Lemma mono_unary f g : f <= g -> Mono (unary f) (unary g).
Proof. intros H. destruct (mono_all_le _ _ H) as (_&_&_&_&M&_). exact M. Qed.

(** C2. [assign] parses its right-hand side with [logor], not with
    [assign]: a successful [assign] is either one [logor] expression or
    [logor], a [=] token and one more [logor] expression, combined into a
    single [BinOp(Equal, _, _)]. On [a = b = c] it returns
    [BinOp(Equal, a, b)] and leaves [= c] unconsumed, and the statement
    [a = b = c;] panics in [expect(Semicolon)] on the second [=]. *)
Theorem assign_rhs_is_logor fuel :
  25 <= fuel ->
  (forall f s n r, assign (S f) s = Ok n r ->
     (logor f s = Ok n r /\
        exists t r', r = t :: r' /\ t.(ty) <> TokenType.Equal) \/
     (exists a b t s1, logor f s = Ok a (t :: s1) /\ t.(ty) = TokenType.Equal /\
        logor f s1 = Ok b r /\ n = new_binop TokenType.Equal a b)) /\
  assign fuel [tk_ident "a"; tk_assign; tk_ident "b"; tk_assign; tk_ident "c"]
  = Ok (new_binop TokenType.Equal (var_node "a") (var_node "b")) [tk_assign; tk_ident "c"] /\
  stmt fuel [tk_ident "a"; tk_assign; tk_ident "b"; tk_assign; tk_ident "c"; tk_semi]
  = Err (ExpectFailed TokenType.Semicolon TokenType.Semicolon TokenType.Equal TokenType.Equal).
Proof.
  intros Hf. mono_of Hf. split; [|split].
  - intros f s n r H. cbn [assign] in H. unfold bind, consume, peek, advance, ret in H.
    destruct (logor f s) as [a s1| |] eqn:E; try discriminate.
    destruct s1 as [|t s1]; [discriminate|]. cbn in H.
    destruct (TokenType.eqb t.(ty) TokenType.Equal) eqn:Et; cbn in H.
    + right.
      destruct (logor f s1) as [b s2| |] eqn:E2; try discriminate.
      injection H as <- <-. exists a, b, t, s1.
      repeat split; auto. apply eqb_eq. exact Et.
    + left. injection H as <- <-. split; [reflexivity|].
      exists t, s1. split; [reflexivity|]. intros Heq. rewrite Heq, eqb_refl in Et.
      discriminate.
  - at_fuel Massign 25.
  - at_fuel Mstmt 25.
Qed.

Lemma assign_rhs_is_logor_witness :
  25 <= 25 /\
  assign 25 [tk_ident "a"; tk_assign; tk_ident "b"; tk_assign; tk_ident "c"]
  = Ok (new_binop TokenType.Equal (var_node "a") (var_node "b")) [tk_assign; tk_ident "c"].
Proof.
  split; [lia|]. apply (proj1 (proj2 (assign_rhs_is_logor 25 (le_n 25)))).
Defined.

(** C2, against the claim: at no fuel does [assign] parse [a = b = c]
    into [BinOp(Equal, a, BinOp(Equal, b, c))] consuming all five tokens. *)
Lemma assign_never_nests_right :
  ~ exists fuel, assign fuel [tk_ident "a"; tk_assign; tk_ident "b"; tk_assign; tk_ident "c"]
     = Ok (new_binop TokenType.Equal (var_node "a")
             (new_binop TokenType.Equal (var_node "b") (var_node "c"))) [].
Proof.
  intros [fuel H].
  destruct (res_beyond _ assign 25 [tk_ident "a"; tk_assign; tk_ident "b"; tk_assign; tk_ident "c"]
              (Ok (new_binop TokenType.Equal (var_node "a") (var_node "b")) [tk_assign; tk_ident "c"])
              mono_assign) with (fuel := fuel) as [E|E];
    [vm_compute; reflexivity | discriminate | congruence | congruence].
Qed.

(** C4. [equality] makes at most one comparison: a successful run is
    either one [rel] expression followed by a token other than [==] and
    [!=], or two [rel] expressions around one [==] or [!=] token, combined
    into a single [BinOp] of that token's kind. On [a==b==c] it returns
    [BinOp(EQ, a, b)] and leaves [== c] unconsumed, and the statement
    [a==b==c;] is rejected by [expect(Semicolon)]. *)
Theorem equality_at_most_one_comparison fuel :
  25 <= fuel ->
  (forall f s n r, equality (S f) s = Ok n r ->
     (rel f s = Ok n r /\ exists t r', r = t :: r' /\
        t.(ty) <> TokenType.EQ /\ t.(ty) <> TokenType.NE) \/
     (exists a b t s1, rel f s = Ok a (t :: s1) /\
        (t.(ty) = TokenType.EQ \/ t.(ty) = TokenType.NE) /\
        rel f s1 = Ok b r /\ n = new_binop t.(ty) a b)) /\
  equality fuel [tk_ident "a"; tk_eqeq; tk_ident "b"; tk_eqeq; tk_ident "c"]
  = Ok (new_binop TokenType.EQ (var_node "a") (var_node "b")) [tk_eqeq; tk_ident "c"] /\
  stmt fuel [tk_ident "a"; tk_eqeq; tk_ident "b"; tk_eqeq; tk_ident "c"; tk_semi]
  = Err (ExpectFailed TokenType.Semicolon TokenType.Semicolon TokenType.EQ TokenType.EQ).
Proof.
  intros Hf. mono_of Hf. split; [|split].
  - intros f s n r H. cbn [equality] in H. unfold bind, peek, advance, ret in H.
    destruct (rel f s) as [a s1| |] eqn:E; try discriminate.
    destruct s1 as [|t s1]; [discriminate|]. cbn in H.
    destruct (TokenType.eqb t.(ty) TokenType.EQ) eqn:Eq.
    + apply eqb_eq in Eq. cbn in H.
      destruct (rel f s1) as [b s2| |] eqn:E2; try discriminate.
      cbn in H. rewrite Eq in H. cbn in H. injection H as <- <-. right. exists a, b, t, s1.
      rewrite Eq. auto.
    + destruct (TokenType.eqb t.(ty) TokenType.NE) eqn:Ne.
      * apply eqb_eq in Ne. cbn in H.
        destruct (rel f s1) as [b s2| |] eqn:E2; try discriminate.
        cbn in H. injection H as <- <-. right. exists a, b, t, s1.
        rewrite Ne. auto.
      * cbn in H. injection H as <- <-. left. split; [reflexivity|].
        exists t, s1. split; [reflexivity|]. split; intros Heq;
          [rewrite Heq, eqb_refl in Eq | rewrite Heq, eqb_refl in Ne]; discriminate.
  - at_fuel Mequality 25.
  - at_fuel Mstmt 25.
Qed.

Lemma equality_at_most_one_comparison_witness :
  25 <= 25 /\
  equality 25 [tk_ident "a"; tk_eqeq; tk_ident "b"; tk_eqeq; tk_ident "c"]
  = Ok (new_binop TokenType.EQ (var_node "a") (var_node "b")) [tk_eqeq; tk_ident "c"].
Proof.
  split; [lia|]. apply (proj1 (proj2 (equality_at_most_one_comparison 25 (le_n 25)))).
Defined.

Lemma eqb_neq k k' : k <> k' -> TokenType.eqb k k' = false.
Proof.
  intros H. destruct (TokenType.eqb k k') eqn:E; [|reflexivity].
  apply eqb_eq in E. contradiction.
Qed.

Lemma ends_add_of_ty t k : t.(ty) = k -> ~ In k add_continuations -> ends_add t = true.
Proof.
  intros Ht Hk. unfold ends_add. rewrite Ht.
  destruct (existsb (TokenType.eqb k) add_continuations) eqn:E; [|reflexivity].
  apply existsb_exists in E as (k' & Hin & Hk'). apply eqb_eq in Hk'. subst k'. contradiction.
Qed.

Lemma bind_ok A B (m : PM A) (k : A -> PM B) s a s' : m s = Ok a s' -> bind m k s = k a s'.
Proof. intros H. unfold bind. rewrite H. reflexivity. Qed.

Lemma consume_hit k t s : t.(ty) = k -> consume k (t :: s) = Ok true s.
Proof. intros H. unfold consume, bind, peek. cbn beta iota. rewrite H, eqb_refl. reflexivity. Qed.

Lemma consume_miss k t s : t.(ty) <> k -> consume k (t :: s) = Ok false (t :: s).
Proof. intros H. unfold consume, bind, peek. cbn beta iota. rewrite (eqb_neq _ _ H). reflexivity. Qed.

Lemma mono_add f g : f <= g -> Mono (add f) (add g).
Proof. intros H. destruct (mono_all_le _ _ H) as (_&_&_&_&_&_&_&M&_). exact M. Qed.

Lemma rel_step_gt g lhs gt s B r :
  gt.(ty) = TokenType.RightAngleBracket -> add g s = Ok B r ->
  rel_loop (S g) lhs (gt :: s) = rel_loop g (new_binop TokenType.LeftAngleBracket B lhs) r.
Proof.
  intros Hg HB. cbn [rel_loop]. unfold bind at 1, peek. rewrite Hg. cbn.
  unfold bind. rewrite HB. reflexivity.
Qed.

Lemma rel_step_lt g lhs lt s B r :
  lt.(ty) = TokenType.LeftAngleBracket -> add g s = Ok B r ->
  rel_loop (S g) lhs (lt :: s) = rel_loop g (new_binop TokenType.LeftAngleBracket lhs B) r.
Proof.
  intros Hl HB. cbn [rel_loop]. unfold bind at 1, peek. rewrite Hl. cbn.
  unfold bind. rewrite HB. reflexivity.
Qed.

Lemma rel_loop_stop g lhs t rest :
  t.(ty) <> TokenType.LeftAngleBracket -> t.(ty) <> TokenType.RightAngleBracket ->
  rel_loop (S g) lhs (t :: rest) = Ok lhs (t :: rest).
Proof.
  intros H1 H2. cbn [rel_loop]. unfold bind, peek. cbn beta iota.
  rewrite (eqb_neq _ _ H1), (eqb_neq _ _ H2). reflexivity.
Qed.

(** C5. [rel] rewrites [a > b] into [BinOp(LeftAngleBracket, b, a)]:
    for any two additive expressions [a] (tokens [ta], tree [A]) and [b]
    (tokens [tb], tree [B]) that end before a token [t] that continues
    neither an additive nor a relational expression, [rel] parses
    [a > b] and [b < a] into the same tree [BinOp(LeftAngleBracket, B, A)],
    leaving [t]; and no list of trees that [parse] returns contains a
    [BinOp(RightAngleBracket, _, _)] anywhere. *)
Theorem rel_canonicalizes_gt (f g : nat) (ta tb : list Token) (t : Token) (rest : list Token)
  (A B : Node) (gt lt : Token) :
  add f (ta ++ t :: rest) = Ok A (t :: rest) ->
  add f (tb ++ t :: rest) = Ok B (t :: rest) ->
  ends_add t = true ->
  t.(ty) <> TokenType.LeftAngleBracket -> t.(ty) <> TokenType.RightAngleBracket ->
  gt.(ty) = TokenType.RightAngleBracket -> lt.(ty) = TokenType.LeftAngleBracket ->
  S (S f) <= g ->
  rel g (ta ++ gt :: tb ++ t :: rest)
  = Ok (new_binop TokenType.LeftAngleBracket B A) (t :: rest) /\
  rel g (tb ++ lt :: ta ++ t :: rest)
  = Ok (new_binop TokenType.LeftAngleBracket B A) (t :: rest) /\
  (forall size_of fuel tokens v r,
     parse size_of fuel tokens = Ok v r -> forallb gt_free v = true).
Proof.
  intros HA HB Ht Hlt Hgt Egt Elt Hg.
  destruct f as [|f]; [discriminate|].
  destruct g as [|[|[|g]]]; try lia.
  assert (Ngt : ends_add gt = true)
    by (apply (ends_add_of_ty _ _ Egt); cbn; intuition discriminate).
  assert (Nlt : ends_add lt = true)
    by (apply (ends_add_of_ty _ _ Elt); cbn; intuition discriminate).
  destruct (add_layer_frame_all (S f)) as (_ & _ & _ & _ & _ & _ & Fadd & _).
  pose proof (Fadd ta [] t gt rest (tb ++ t :: rest) A (conj Ht Ngt) HA) as HA'.
  pose proof (Fadd tb [] t lt rest (ta ++ t :: rest) B (conj Ht Nlt) HB) as HB'.
  cbn [app] in HA', HB'.
  assert (M1 : S f <= S (S g)) by lia. assert (M2 : S f <= S g) by lia.
  split; [|split].
  - cbn [rel]. unfold bind at 1.
    rewrite (mono_result _ _ _ _ _ (mono_add _ _ M1) HA' ltac:(discriminate)).
    rewrite (rel_step_gt _ _ _ _ _ _ Egt (mono_result _ _ _ _ _ (mono_add _ _ M2) HB ltac:(discriminate))).
    apply rel_loop_stop; assumption.
  - cbn [rel]. unfold bind at 1.
    rewrite (mono_result _ _ _ _ _ (mono_add _ _ M1) HB' ltac:(discriminate)).
    rewrite (rel_step_lt _ _ _ _ _ _ Elt (mono_result _ _ _ _ _ (mono_add _ _ M2) HA ltac:(discriminate))).
    apply rel_loop_stop; assumption.
  - intros size_of fuel tokens v r H.
    exact (post_parse_loop size_of fuel [] eq_refl tokens v r H).
Qed.

Lemma rel_canonicalizes_gt_witness :
  rel 7 ([tk_ident "a"] ++ tk_gt :: [tk_ident "b"] ++ [tk_semi])
  = Ok (new_binop TokenType.LeftAngleBracket (var_node "b") (var_node "a")) [tk_semi] /\
  rel 7 ([tk_ident "b"] ++ tk_lt :: [tk_ident "a"] ++ [tk_semi])
  = Ok (new_binop TokenType.LeftAngleBracket (var_node "b") (var_node "a")) [tk_semi].
Proof.
  destruct (rel_canonicalizes_gt 5 7 [tk_ident "a"] [tk_ident "b"] tk_semi []
              (var_node "a") (var_node "b") tk_gt tk_lt)
    as (H1 & H2 & _);
    [vm_compute; reflexivity | vm_compute; reflexivity | reflexivity
    | discriminate | discriminate | reflexivity | reflexivity | lia |].
  split; [exact H1 | exact H2].
Defined.

(** C7. The operand of prefix [*] and [&] is parsed by [mul], that of
    [sizeof] and [_Alignof] by [unary]. There is no prefix minus, so
    [sizeof - x;] is rejected ([primary] panics on [-]); [sizeof(x+1);]
    is [Sizeof(Plus(x, 1))], [sizeof x + 1;] is [Plus(Sizeof(x), 1)], and
    [*p*q;] is [Deref(Mul(p, q))]. *)
Theorem unary_prefix_operands fuel :
  25 <= fuel ->
  (forall f t s, t.(ty) = TokenType.Mul ->
     unary (S f) (t :: s) = bind (mul f) (fun e => ret (new_node (NodeType.Deref e))) s) /\
  (forall f t s, t.(ty) = TokenType.And ->
     unary (S f) (t :: s) = bind (mul f) (fun e => ret (new_node (NodeType.Addr e))) s) /\
  (forall f t s, t.(ty) = TokenType.Sizeof ->
     unary (S f) (t :: s) = bind (unary f) (fun e => ret (new_node (NodeType.Sizeof e))) s) /\
  (forall f t s, t.(ty) = TokenType.Alignof ->
     unary (S f) (t :: s) = bind (unary f) (fun e => ret (new_node (NodeType.Alignof e))) s) /\
  stmt fuel [tk_sizeof; tk_minus; tk_ident "x"; tk_semi]
  = Err (PanicMsg "number expected, but got " "-") /\
  stmt fuel [tk_sizeof; tk_lparen; tk_ident "x"; tk_plus; tk_num 1 "1"; tk_rparen; tk_semi]
  = Ok (new_node (NodeType.ExprStmt (new_node (NodeType.Sizeof
          (new_binop TokenType.Plus (var_node "x") (num_node 1)))))) [] /\
  stmt fuel [tk_sizeof; tk_ident "x"; tk_plus; tk_num 1 "1"; tk_semi]
  = Ok (new_node (NodeType.ExprStmt (new_binop TokenType.Plus
          (new_node (NodeType.Sizeof (var_node "x"))) (num_node 1)))) [] /\
  stmt fuel [tk_star; tk_ident "p"; tk_star; tk_ident "q"; tk_semi]
  = Ok (new_node (NodeType.ExprStmt (new_node (NodeType.Deref
          (new_binop TokenType.Mul (var_node "p") (var_node "q")))))) [].
Proof.
  intros Hf. mono_of Hf.
  split; [|split; [|split; [|split]]].
  - intros f t s Ht. cbn [unary].
    rewrite (bind_ok _ _ _ _ _ _ _ (consume_hit _ _ _ Ht)). reflexivity.
  - intros f t s Ht. cbn [unary].
    rewrite (bind_ok _ _ _ _ _ _ _ (consume_miss TokenType.Mul _ s ltac:(rewrite Ht; discriminate))).
    rewrite (bind_ok _ _ _ _ _ _ _ (consume_hit _ _ _ Ht)). reflexivity.
  - intros f t s Ht. cbn [unary].
    rewrite (bind_ok _ _ _ _ _ _ _ (consume_miss TokenType.Mul _ s ltac:(rewrite Ht; discriminate))).
    rewrite (bind_ok _ _ _ _ _ _ _ (consume_miss TokenType.And _ s ltac:(rewrite Ht; discriminate))).
    rewrite (bind_ok _ _ _ _ _ _ _ (consume_hit _ _ _ Ht)). reflexivity.
  - intros f t s Ht. cbn [unary].
    rewrite (bind_ok _ _ _ _ _ _ _ (consume_miss TokenType.Mul _ s ltac:(rewrite Ht; discriminate))).
    rewrite (bind_ok _ _ _ _ _ _ _ (consume_miss TokenType.And _ s ltac:(rewrite Ht; discriminate))).
    rewrite (bind_ok _ _ _ _ _ _ _ (consume_miss TokenType.Sizeof _ s ltac:(rewrite Ht; discriminate))).
    rewrite (bind_ok _ _ _ _ _ _ _ (consume_hit _ _ _ Ht)). reflexivity.
  - repeat split.
  all: apply (mono_result _ (stmt 25) (stmt fuel)); [exact Mstmt | vm_compute; reflexivity | discriminate].
Qed.

(** C7, against the claim: [unary] never succeeds on [sizeof - x],
    whatever follows it and whatever the fuel. *)
Lemma sizeof_minus_never_parses :
  ~ exists fuel rest n r, unary fuel ([tk_sizeof; tk_minus; tk_ident "x"] ++ rest) = Ok n r.
Proof.
  intros (fuel & rest & n & r & H).
  destruct fuel as [|[|[|[|[|f]]]]]; cbn in H; discriminate.
Qed.

Lemma mono_parse size_of f g tokens : f <= g ->
  parse size_of f tokens = OutOfFuel \/ parse size_of f tokens = parse size_of g tokens.
Proof. intros H. exact (mono_parse_loop size_of f g [] H tokens). Qed.

(** C8. On the tokens of [int x], [toplevel] reads the token after [x]
    in [consume(LeftParen)] and panics with an index out of bounds
    ([EndOfTokens]) before any [expect(Semicolon)]; with the [;] the same
    declaration parses. When [expect k] fails, its message carries [k]
    twice and the actual token's kind twice, never its raw text. *)
Theorem parse_int_x_reads_past_end size_of fuel :
  3 <= fuel ->
  parse size_of fuel [tk_int; tk_ident "x"] = Err EndOfTokens /\
  parse size_of fuel [tk_int; tk_ident "x"; tk_semi]
  = Ok [MkNode (NodeType.Vardef "x" None
                  (Scope.Global EmptyString (size_of (MkType Ctype.Int)) false))
               (MkType Ctype.Int)] [] /\
  (forall k t s, t.(ty) <> k -> expect k (t :: s) = Err (ExpectFailed k k t.(ty) t.(ty))).
Proof.
  intros Hf. split; [|split].
  - destruct (mono_parse size_of 3 fuel [tk_int; tk_ident "x"] Hf) as [E|E];
      [vm_compute in E; discriminate | rewrite <- E; vm_compute; reflexivity].
  - destruct (mono_parse size_of 3 fuel [tk_int; tk_ident "x"; tk_semi] Hf) as [E|E];
      [vm_compute in E; discriminate | rewrite <- E; vm_compute; reflexivity].
  - intros k t s H. unfold expect, bind, peek. cbn beta iota.
    rewrite (eqb_neq _ _ H). reflexivity.
Qed.

Lemma unary_prefix_operands_witness :
  25 <= 25 /\
  stmt 25 [tk_sizeof; tk_minus; tk_ident "x"; tk_semi]
  = Err (PanicMsg "number expected, but got " "-").
Proof.
  split; [lia|].
  apply (proj1 (proj2 (proj2 (proj2 (proj2 (unary_prefix_operands 25 (le_n 25))))))).
Defined.

Lemma parse_int_x_reads_past_end_witness :
  3 <= 3 /\ parse (fun _ => 4) 3 [tk_int; tk_ident "x"] = Err EndOfTokens.
Proof.
  split; [lia|]. apply (proj1 (parse_int_x_reads_past_end (fun _ => 4) 3 (le_n 3))).
Defined.

End ParseFacts.

(* ================================================================== *)
(** * Further properties of the code generator *)

Module CodegenExtra.
Import IR Codegen CodegenChecks CodegenExamples CodegenFacts.
Local Open Scope string_scope.
Local Open Scope list_scope.

Lemma reg_in_range_nth REGS i :
  reg_in_range REGS i = match nth_error REGS i with Some _ => true | None => false end.
Proof.
  unfold reg_in_range. destruct (nth_error REGS i) eqn:E.
  - apply Nat.ltb_lt, nth_error_Some. congruence.
  - apply Nat.ltb_ge, nth_error_None. exact E.
Qed.

Lemma gen_ir_cases REGS ret ir :
  match gen_ir REGS ret ir with
  | Done o _ => ir_ok REGS ir = true /\ List.length o = ir_line_count ir
  | Abort _ _ => ir_ok REGS ir = false
  end.
Proof.
  destruct ir as [o [l|] r]; [|reflexivity].
  unfold gen_ir, ir_ok, ir_line_count, reg, unwrap, print, oret, fail; simpl.
  repeat rewrite reg_in_range_nth.
  destruct o; simpl; destruct (nth_error REGS l) eqn:El; simpl;
    try destruct r as [r|]; simpl; try destruct (nth_error REGS r) eqn:Er; simpl;
    repeat rewrite reg_in_range_nth; rewrite ?El, ?Er; simpl; auto.
Qed.

Lemma gen_body_cases REGS ret irv :
  match gen_body REGS ret irv with
  | Done o _ => forallb (ir_ok REGS) irv = true /\
                List.length o = list_sum (map ir_line_count irv)
  | Abort _ _ => forallb (ir_ok REGS) irv = false
  end.
Proof.
  induction irv as [|ir irv IH]; simpl; [auto|].
  pose proof (gen_ir_cases REGS ret ir) as Hir.
  destruct (gen_ir REGS ret ir) as [o1 []|o1 p]; simpl.
  - destruct Hir as [-> Hl]. simpl.
    destruct (gen_body REGS ret irv) as [o2 []|o2 p]; simpl; [|exact IH].
    destruct IH as [-> Hl2]. rewrite length_app, Hl, Hl2. auto.
  - rewrite Hir. reflexivity.
Qed.

(** X1. [gen_x86] runs to its end exactly when every instruction is
    well formed for [REGS] ([ir_ok]: [lhs] set, every [REGS] index in
    range, every [rhs] its branch unwraps set); it then prints 7 lines of
    prologue and epilogue plus, per instruction, the number of [print!]
    calls of its opcode's branch. *)
Theorem gen_x86_completes_iff_well_formed REGS n irv :
  ((exists lines, fst (gen_x86 REGS n irv) = Done lines tt) <->
   forallb (ir_ok REGS) irv = true) /\
  (forall lines, fst (gen_x86 REGS n irv) = Done lines tt ->
   List.length lines = 7 + list_sum (map ir_line_count irv)).
Proof.
  pose proof (gen_body_cases REGS (fst (gen_label n)) irv) as Hb.
  destruct (gen_body REGS (fst (gen_label n)) irv) as [body []|body p] eqn:E.
  - destruct Hb as [Hok Hl].
    assert (Hx : fst (gen_x86 REGS n irv) = Done (prologue ++ body ++ epilogue (fst (gen_label n))) tt).
    { unfold gen_x86, gen_label in *. simpl in *. rewrite E. reflexivity. }
    rewrite Hx. split.
    + split; [intros _; exact Hok | intros _; eexists; reflexivity].
    + intros lines H. injection H as <-. simpl. rewrite length_app, Hl. simpl. lia.
  - rewrite (gen_x86_abort _ _ _ _ _ E). split.
    + split; [intros [l H]; discriminate | rewrite Hb; discriminate].
    + intros lines H; discriminate.
Qed.

Lemma gen_x86_completes_iff_well_formed_witness :
  fst (gen_x86 c1_regs 0 c1_irv) = Done c1_lines tt /\ List.length c1_lines = 10.
Proof.
  assert (H : fst (gen_x86 c1_regs 0 c1_irv) = Done c1_lines tt) by (vm_compute; reflexivity).
  split; [exact H|].
  rewrite (proj2 (gen_x86_completes_iff_well_formed c1_regs 0 c1_irv) c1_lines H).
  reflexivity.
Defined.

(** Decimal labels: [nat_to_string] is injective. *)
Section Labels.
Local Open Scope string_scope.

Lemma sappend_assoc (a b c : string) : (a ++ b) ++ c = a ++ (b ++ c).
Proof. induction a as [|x a IH]; simpl; [reflexivity | rewrite IH; reflexivity]. Qed.

Lemma nat_to_string_aux_acc fuel n acc :
  nat_to_string_aux fuel n acc = nat_to_string_aux fuel n EmptyString ++ acc.
Proof.
  revert n acc; induction fuel as [|fuel IH]; intros n acc; cbn [nat_to_string_aux]; [reflexivity|].
  destruct (n <? 10)%nat; [reflexivity|].
  rewrite IH, (IH _ (String _ EmptyString)), sappend_assoc. reflexivity.
Qed.

Lemma nat_to_string_aux_fuel f1 f2 n acc :
  n < f1 -> n < f2 -> nat_to_string_aux f1 n acc = nat_to_string_aux f2 n acc.
Proof.
  revert f2 n acc; induction f1 as [|f1 IH]; intros f2 n acc H1 H2; [lia|].
  destruct f2 as [|f2]; [lia|]. cbn [nat_to_string_aux].
  destruct (n <? 10)%nat eqn:E; [reflexivity|].
  apply Nat.ltb_ge in E.
  assert (n / 10 < n) by (apply Nat.div_lt; lia).
  apply IH; lia.
Qed.

Lemma nat_to_string_step n :
  nat_to_string n =
  if (n <? 10)%nat then String (digit n) EmptyString
  else nat_to_string (n / 10) ++ String (digit n) EmptyString.
Proof.
  unfold nat_to_string at 1. cbn [nat_to_string_aux]. fold (digit n).
  destruct (n <? 10)%nat eqn:E; [reflexivity|].
  apply Nat.ltb_ge in E.
  assert (n / 10 < n) by (apply Nat.div_lt; lia).
  rewrite nat_to_string_aux_acc. unfold nat_to_string. f_equal.
  destruct n as [|n]; [lia|]. apply nat_to_string_aux_fuel; lia.
Qed.

Lemma sapp_single_inj (a b : string) x y :
  a ++ String x EmptyString = b ++ String y EmptyString -> a = b /\ x = y.
Proof.
  revert b; induction a as [|c a IH]; intros [|d b] H; simpl in H.
  - injection H as ->. auto.
  - injection H as -> H. destruct b; discriminate.
  - injection H as -> H. destruct a; discriminate.
  - injection H as -> H. destruct (IH _ H) as [-> ->]. auto.
Qed.

Lemma digit_inj n m : digit n = digit m -> n mod 10 = m mod 10.
Proof.
  unfold digit. intros H.
  assert (Hn : n mod 10 < 10) by (apply Nat.mod_upper_bound; lia).
  assert (Hm : m mod 10 < 10) by (apply Nat.mod_upper_bound; lia).
  apply (f_equal nat_of_ascii) in H.
  rewrite !nat_ascii_embedding in H by lia. lia.
Qed.

Lemma nat_to_string_nonempty n : nat_to_string n <> EmptyString.
Proof.
  rewrite nat_to_string_step. destruct (n <? 10)%nat; [discriminate|].
  destruct (nat_to_string (n / 10)); discriminate.
Qed.

Lemma nat_to_string_inj n m : nat_to_string n = nat_to_string m -> n = m.
Proof.
  revert m; induction n as [n IH] using lt_wf_ind; intros m H.
  rewrite (nat_to_string_step n), (nat_to_string_step m) in H.
  pose proof (Nat.div_mod n 10) as Dn. pose proof (Nat.div_mod m 10) as Dm.
  destruct (n <? 10)%nat eqn:En, (m <? 10)%nat eqn:Em;
    apply Nat.ltb_lt in En || apply Nat.ltb_ge in En;
    apply Nat.ltb_lt in Em || apply Nat.ltb_ge in Em.
  - injection H as H. apply digit_inj in H. rewrite !Nat.mod_small in H by lia. exact H.
  - pose proof (nat_to_string_nonempty (m / 10)).
    destruct (nat_to_string (m / 10)) as [|c [|c' s]]; [congruence| |]; discriminate.
  - pose proof (nat_to_string_nonempty (n / 10)).
    destruct (nat_to_string (n / 10)) as [|c [|c' s]]; [congruence| |]; discriminate.
  - apply sapp_single_inj in H as [H1 H2].
    apply IH in H1; [|apply Nat.div_lt; lia]. apply digit_inj in H2. lia.
Qed.

(** X2. Each run of [gen_x86] takes one label from the counter and bumps
    it; the label is [.L] followed by the counter in decimal, and two
    different counter values never give the same label, so the return
    labels of successive functions are all distinct. *)
Theorem gen_x86_fresh_labels REGS n irv :
  snd (gen_x86 REGS n irv) = S n /\
  fst (gen_label n) = ".L" ++ nat_to_string n /\
  (forall m, m <> n -> fst (gen_label m) <> fst (gen_label n)).
Proof.
  split; [reflexivity|]. split; [reflexivity|].
  intros m Hm H. simpl in H. injection H as H. apply nat_to_string_inj in H. lia.
Qed.

Lemma gen_x86_fresh_labels_witness :
  10 <> 1 /\ fst (gen_label 10) <> fst (gen_label 1).
Proof.
  split; [discriminate|].
  apply (proj2 (proj2 (gen_x86_fresh_labels c1_regs 1 c1_irv)) 10). discriminate.
Defined.

End Labels.

Lemma gen_x86_of_body REGS n irv :
  fst (gen_x86 REGS n irv) =
  match gen_body REGS (fst (gen_label n)) irv with
  | Done b _ => Done (prologue ++ b ++ epilogue (fst (gen_label n))) tt
  | Abort b p => Abort (prologue ++ b) p
  end.
Proof.
  unfold gen_x86. destruct (gen_label n) as [ret n']. simpl fst.
  destruct (gen_body REGS ret irv) as [b []|b p]; simpl; rewrite ?app_nil_r; reflexivity.
Qed.

(** X3. The loop compiles instruction by instruction: when [irv1] and
    [irv2] each compile to a body between the same prologue and
    epilogue, [irv1 ++ irv2] compiles to the two bodies one after the
    other; when [irv1] panics, [irv1 ++ irv2] panics after printing the
    same lines. *)
Theorem gen_x86_concat REGS n irv1 irv2 b1 b2 :
  (fst (gen_x86 REGS n irv1) = Done (prologue ++ b1 ++ epilogue (fst (gen_label n))) tt ->
   fst (gen_x86 REGS n irv2) = Done (prologue ++ b2 ++ epilogue (fst (gen_label n))) tt ->
   fst (gen_x86 REGS n (irv1 ++ irv2))
   = Done (prologue ++ b1 ++ b2 ++ epilogue (fst (gen_label n))) tt) /\
  (forall l p, fst (gen_x86 REGS n irv1) = Abort l p ->
   fst (gen_x86 REGS n (irv1 ++ irv2)) = Abort l p).
Proof.
  rewrite !gen_x86_of_body, gen_body_app. split.
  - destruct (gen_body REGS (fst (gen_label n)) irv1) as [c1 []|c1 p]; [|discriminate].
    destruct (gen_body REGS (fst (gen_label n)) irv2) as [c2 []|c2 p]; [|discriminate].
    intros H1 H2. injection H1 as H1. injection H2 as H2.
    apply app_inv_tail in H1. apply app_inv_tail in H2.
    subst. simpl. rewrite app_assoc. reflexivity.
  - intros l p. destruct (gen_body REGS (fst (gen_label n)) irv1) as [c1 []|c1 p']; [discriminate|].
    simpl. intros H. exact H.
Qed.

Lemma gen_x86_concat_witness :
  fst (gen_x86 c1_regs 0 ([MkIR Imm (Some 0) (Some 5)] ++ [MkIR Return (Some 0) None]))
  = Done (prologue ++ ["  mov rdi, 5"] ++ ["  mov rax, rdi"; "  jmp .L0"] ++
          epilogue (fst (gen_label 0))) tt.
Proof.
  apply (proj1 (gen_x86_concat c1_regs 0 _ _ _ _)); vm_compute; reflexivity.
Defined.

Lemma gen_body_drop_nop_kill REGS ret irv :
  Forall (fun ir => is_nop_kill ir = true -> ir.(lhs) <> None) irv ->
  gen_body REGS ret (filter (fun ir => negb (is_nop_kill ir)) irv) = gen_body REGS ret irv.
Proof.
  induction 1 as [|ir irv Hir Hrest IH]; [reflexivity|].
  simpl. destruct (is_nop_kill ir) eqn:E; simpl; rewrite IH; [|reflexivity].
  destruct ir as [o [l|] r]; [|exfalso; exact (Hir eq_refl eq_refl)].
  unfold is_nop_kill in E; simpl in E.
  destruct o; try discriminate E; unfold obind at 1; simpl;
    destruct (gen_body REGS ret irv); reflexivity.
Qed.

(** X4. [Nop] and [Kill] print nothing: deleting every [Nop] and [Kill]
    instruction from the sequence leaves what [gen_x86] prints, whether
    it completes or panics, and the label counter unchanged, as long as
    each of them has its [lhs] set (the one thing the loop does with
    them is [ir.lhs.unwrap()]). *)
Theorem gen_x86_drop_nop_kill REGS n irv :
  Forall (fun ir => is_nop_kill ir = true -> ir.(lhs) <> None) irv ->
  gen_x86 REGS n (filter (fun ir => negb (is_nop_kill ir)) irv) = gen_x86 REGS n irv.
Proof.
  intros H. unfold gen_x86. destruct (gen_label n) as [ret n'].
  rewrite gen_body_drop_nop_kill by exact H. reflexivity.
Qed.

Lemma gen_x86_drop_nop_kill_witness :
  Forall (fun ir => is_nop_kill ir = true -> ir.(lhs) <> None)
    [MkIR Nop (Some 0) None; MkIR Imm (Some 0) (Some 5); MkIR Kill (Some 1) None] /\
  gen_x86 c1_regs 0 [MkIR Imm (Some 0) (Some 5)] =
  gen_x86 c1_regs 0 [MkIR Nop (Some 0) None; MkIR Imm (Some 0) (Some 5); MkIR Kill (Some 1) None].
Proof.
  assert (H : Forall (fun ir => is_nop_kill ir = true -> ir.(lhs) <> None)
    [MkIR Nop (Some 0) None; MkIR Imm (Some 0) (Some 5); MkIR Kill (Some 1) None])
    by (repeat constructor; simpl; intros _; discriminate).
  split; [exact H|]. exact (gen_x86_drop_nop_kill c1_regs 0 _ H).
Defined.

End CodegenExtra.

(* ================================================================== *)
(** * Further properties of the parser *)

Module ParseExtra.
Import Parse ParseSpec ParseExamples ParseChecks ParseFacts.
Local Open Scope string_scope.
Local Open Scope list_scope.

Lemma bind_inv A B (m : PM A) (k : A -> PM B) s b r :
  bind m k s = Ok b r -> exists a s1, m s = Ok a s1 /\ k a s1 = Ok b r.
Proof. unfold bind. destruct (m s) as [a s1| |]; intros H; try discriminate. eauto. Qed.

Ltac inv_binds H :=
  repeat match type of H with
  | bind _ _ _ = Ok _ _ =>
      let a := fresh "a" in let s1 := fresh "s" in let Hm := fresh "Hm" in
      apply bind_inv in H as (a & s1 & Hm & H); cbv beta in H
  | ret _ _ = Ok _ _ => injection H as <- <-
  | panic _ _ = Ok _ _ => discriminate H
  | no_fuel _ = Ok _ _ => discriminate H
  | (if ?b then _ else _) _ = Ok _ _ => destruct b
  | (match ?x with _ => _ end) _ = Ok _ _ => destruct x
  end.

Lemma parse_loop_end size_of fuel acc s v r :
  parse_loop size_of fuel acc s = Ok v r -> r = [].
Proof.
  revert acc s; induction fuel as [|fuel IH]; intros acc s H; [discriminate|].
  cbn [parse_loop] in H. inv_binds H.
  - unfold at_end in Hm. injection Hm as E1 E2. rewrite <- E2. destruct s; [reflexivity | discriminate E1].
  - eapply IH; exact H.
Qed.

Lemma param_ok f s n r : param f s = Ok n r -> param_node_ok n = true.
Proof.
  unfold param. intros H. inv_binds H; reflexivity.
Qed.

Lemma param_list_ok f acc s v r :
  forallb param_node_ok acc = true -> param_list f acc s = Ok v r -> forallb param_node_ok v = true.
Proof.
  revert acc s; induction f as [|f IH]; intros acc s Ha H; [discriminate|].
  cbn [param_list] in H. inv_binds H; [|exact Ha].
  eapply IH; [|exact H]. rewrite forallb_app, Ha. simpl.
  rewrite (param_ok _ _ _ _ Hm0). reflexivity.
Qed.

Lemma compound_stmt_shape f s n r :
  compound_stmt f s = Ok n r -> exists stmts, n = new_node (NodeType.CompStmt stmts).
Proof.
  destruct f as [|f]; [discriminate|]. cbn [compound_stmt]. intros H. inv_binds H. eauto.
Qed.

Lemma toplevel_ok size_of f s n r :
  toplevel size_of f s = Ok n r -> toplevel_node_ok size_of n = true.
Proof.
  unfold toplevel. intros H. inv_binds H.
  - destruct (compound_stmt_shape _ _ _ _ Hm6) as [stmts ->].
    inv_binds Hm4; [reflexivity|].
    match goal with
    | Hp : param _ _ = Ok ?p _, Hl : param_list _ _ _ = Ok _ _ |- _ =>
        simpl; eapply param_list_ok; [|exact Hl]; simpl;
        rewrite (param_ok _ _ _ _ Hp); reflexivity
    end.
  - destruct a; simpl; rewrite ?Nat.eqb_refl; reflexivity.
Qed.

(** X5. A successful [parse] consumes every token, and each node it returns is a function
    definition whose parameters are local variables without initializer
    and whose body is a block, or a global variable without initializer,
    sized 0 when [extern] and [size_of] of its type otherwise. *)
Theorem parse_result_shape size_of fuel tokens v r :
  parse size_of fuel tokens = Ok v r ->
  r = [] /\ forallb (toplevel_node_ok size_of) v = true.
Proof.
  intros H. split; [exact (parse_loop_end _ _ _ _ _ _ H)|].
  unfold parse in H. assert (Hacc : forallb (toplevel_node_ok size_of) [] = true) by reflexivity.
  revert H Hacc. generalize (@nil Node) as acc. revert tokens.
  induction fuel as [|fuel IH]; intros tokens acc H Hacc; [discriminate|].
  cbn [parse_loop] in H. inv_binds H; [exact Hacc|].
  eapply IH; [exact H|]. rewrite forallb_app, Hacc. simpl.
  rewrite (toplevel_ok _ _ _ _ _ Hm0). reflexivity.
Qed.

Lemma parse_result_shape_witness :
  parse (fun _ => 4) 10 [tk_int; tk_ident "x"; tk_semi]
  = Ok [MkNode (NodeType.Vardef "x" None (Scope.Global EmptyString 4 false)) (MkType Ctype.Int)] [] /\
  forallb (toplevel_node_ok (fun _ => 4))
    [MkNode (NodeType.Vardef "x" None (Scope.Global EmptyString 4 false)) (MkType Ctype.Int)] = true.
Proof.
  assert (H : parse (fun _ => 4) 10 [tk_int; tk_ident "x"; tk_semi]
    = Ok [MkNode (NodeType.Vardef "x" None (Scope.Global EmptyString 4 false)) (MkType Ctype.Int)] [])
    by (vm_compute; reflexivity).
  split; [exact H|]. exact (proj2 (parse_result_shape _ _ _ _ _ H)).
Defined.

Lemma ctype_ptrs_stars f typ k t s :
  TokenType.eqb t.(ty) TokenType.Mul = false -> k < f ->
  ctype_ptrs f typ (repeat tk_star k ++ t :: s) =
  Ok (Nat.iter k (fun ty => MkType (Ctype.Ptr ty)) typ) (t :: s).
Proof.
  intros Ht. revert f typ; induction k as [|k IH]; intros f typ Hk;
    (destruct f as [|f]; [lia|]); cbn [ctype_ptrs repeat app].
  - cbv [bind consume peek advance ret]. rewrite Ht. reflexivity.
  - cbv [bind consume peek advance ret]. simpl. rewrite IH by lia. f_equal. exact (eq_sym (Nat.iter_succ_r _ _ _ _)).
Qed.

(** X6. [ctype] reads one type name and then as many [*] as follow, each
    wrapping the type read so far in one more pointer level; a token that
    is not [int] or [char] is rejected with its text. *)
Theorem ctype_pointer_depth fuel t0 k t s :
  TokenType.eqb t.(ty) TokenType.Mul = false -> k < fuel ->
  ctype fuel (t0 :: repeat tk_star k ++ t :: s) =
  match get_type t0 with
  | Some typ => Ok (Nat.iter k (fun ty => MkType (Ctype.Ptr ty)) typ) (t :: s)
  | None => Err (PanicMsg "typename expected, but got " t0.(input))
  end.
Proof.
  intros Ht Hk. unfold ctype, bind at 1, peek.
  destruct (get_type t0) as [typ|]; [|reflexivity].
  unfold bind, advance. simpl. apply ctype_ptrs_stars; assumption.
Qed.

Lemma ctype_pointer_depth_witness :
  TokenType.eqb (tk_ident "p").(ty) TokenType.Mul = false /\ 2 < 3 /\
  ctype 3 (tk_int :: repeat tk_star 2 ++ [tk_ident "p"])
  = Ok (MkType (Ctype.Ptr (MkType (Ctype.Ptr (MkType Ctype.Int))))) [tk_ident "p"].
Proof.
  split; [reflexivity|]. split; [lia|].
  exact (ctype_pointer_depth 3 tk_int 2 (tk_ident "p") [] eq_refl ltac:(lia)).
Defined.

Lemma read_dims_step f v d rest :
  read_dims (S (S f)) v (dim_tokens d ++ rest) =
  read_dims (S f) (v ++ [usize_of_i32 (fst d)]) rest.
Proof. reflexivity. Qed.

Lemma read_dims_tokens f v ds t s :
  TokenType.eqb t.(ty) TokenType.LeftBracket = false -> List.length ds < f ->
  read_dims f v (flat_map dim_tokens ds ++ t :: s) =
  Ok (v ++ map (fun d => usize_of_i32 (fst d)) ds) (t :: s).
Proof.
  intros Ht. revert f v; induction ds as [|d ds IH]; intros f v Hf.
  - destruct f as [|f]; [simpl in Hf; lia|]. cbn [read_dims flat_map app map].
    cbv [bind consume peek advance ret]. rewrite Ht, app_nil_r. reflexivity.
  - destruct f as [|[|f]]; [simpl in Hf; lia | simpl in Hf; lia|].
    cbn [flat_map]. rewrite <- app_assoc, read_dims_step.
    rewrite IH by (simpl in Hf; lia). rewrite <- app_assoc. reflexivity.
Qed.

(** X7. [read_array] reads the dimensions [[n1][n2]...[nk]] in order and
    wraps the base type first in the array of the FIRST length, so the
    last dimension written is the outermost array type; each length is
    the [i32] value converted with [as usize]. A dimension that is not
    a number literal, such as [[x]], is rejected. *)
Theorem read_array_dims_order fuel typ ds t s x ix t' s' :
  TokenType.eqb t.(ty) TokenType.LeftBracket = false ->
  TokenType.eqb t'.(ty) TokenType.LeftParen = false ->
  List.length ds + 3 <= fuel ->
  read_array fuel typ (flat_map dim_tokens ds ++ t :: s) =
  Ok (fold_left (fun typ val => MkType (Ctype.Ary typ val))
        (map (fun d => usize_of_i32 (fst d)) ds) typ) (t :: s) /\
  read_array fuel typ (MkToken TokenType.LeftBracket "[" :: MkToken (TokenType.Ident x) ix :: t' :: s')
  = Err (PanicMsg "number expected" EmptyString).
Proof.
  intros Ht Ht' Hf. destruct fuel as [|f]; [lia|]. split.
  - cbn [read_array]. cbv [bind ret]. rewrite read_dims_tokens by (assumption || lia).
    reflexivity.
  - destruct f as [|f]; [lia|]. destruct f as [|f]; [lia|].
    cbn [read_array read_dims primary]. cbv [bind consume peek advance ret panic expect].
    simpl. rewrite Ht'. reflexivity.
Qed.

Lemma read_array_dims_order_witness :
  read_array 5 (MkType Ctype.Int) (flat_map dim_tokens [(2%Z, "2"); (3%Z, "3")] ++ [tk_semi])
  = Ok (MkType (Ctype.Ary (MkType (Ctype.Ary (MkType Ctype.Int) 2)) 3)) [tk_semi].
Proof.
  exact (proj1 (read_array_dims_order 5 (MkType Ctype.Int) [(2%Z, "2"); (3%Z, "3")]
                  tk_semi [] "x" "x" tk_semi [] eq_refl eq_refl ltac:(simpl; lia))).
Defined.

(** X8. A global variable cannot have an initializer: [toplevel] rejects
    [int x = ...] at the [=], expecting [;]; the same declaration inside a
    function body is a local variable definition whose initializer is
    the expression parsed by [assign]. *)
Theorem initializer_local_only size_of fuel name ii ni ei s a si r :
  2 <= fuel ->
  toplevel size_of fuel (MkToken TokenType.Int ii :: MkToken (TokenType.Ident name) ni ::
                         MkToken TokenType.Equal ei :: s)
  = Err (ExpectFailed TokenType.Semicolon TokenType.Semicolon TokenType.Equal TokenType.Equal) /\
  (assign fuel s = Ok a (MkToken TokenType.Semicolon si :: r) ->
   decl (S fuel) (MkToken TokenType.Int ii :: MkToken (TokenType.Ident name) ni ::
                  MkToken TokenType.Equal ei :: s)
   = Ok (MkNode (NodeType.Vardef name (Some a) (Scope.Local 0)) (MkType Ctype.Int)) r).
Proof.
  intros Hf. destruct fuel as [|[|f]]; [lia|lia|]. split.
  - reflexivity.
  - intros H. cbn [decl read_array read_dims ctype_ptrs].
    cbv [bind consume peek advance ret expect ctype]. cbn -[assign]. rewrite H. reflexivity.
Qed.

Lemma initializer_local_only_witness :
  toplevel (fun _ => 4) 12 [tk_int; tk_ident "x"; tk_assign; tk_num 1 "1"; tk_semi]
  = Err (ExpectFailed TokenType.Semicolon TokenType.Semicolon TokenType.Equal TokenType.Equal) /\
  decl 13 [tk_int; tk_ident "x"; tk_assign; tk_num 1 "1"; tk_semi]
  = Ok (MkNode (NodeType.Vardef "x" (Some (num_node 1)) (Scope.Local 0)) (MkType Ctype.Int)) [].
Proof.
  destruct (initializer_local_only (fun _ => 4) 12 "x" "int" "x" "=" [tk_num 1 "1"; tk_semi]
              (num_node 1) ";" [] ltac:(lia)) as [H1 H2].
  split; [exact H1|]. apply H2. vm_compute. reflexivity.
Defined.

Lemma peek_nonempty s t s1 : peek s = Ok t s1 -> s1 <> [].
Proof. unfold peek. destruct s; intros H; [discriminate|]. injection H as _ <-. discriminate. Qed.

Lemma logor_loop_nonempty f l s a r : logor_loop f l s = Ok a r -> r <> [].
Proof.
  revert l s; induction f as [|f IH]; intros l s H; [discriminate|].
  cbn [logor_loop] in H. inv_binds H.
  - eapply peek_nonempty; eassumption.
  - eapply IH; exact H.
Qed.

Lemma logor_nonempty f s a r : logor f s = Ok a r -> r <> [].
Proof.
  destruct f as [|f]; intros H; [discriminate|]. cbn [logor] in H. inv_binds H.
  eapply logor_loop_nonempty; exact H.
Qed.

(** X9. An expression never ends the token stream: whenever [assign]
    succeeds, at least one token is left after the expression (the
    operator loops of [rel], [equality], [logand] and [logor] index the
    token after every operand), so an expression at the very end of the
    input is never accepted. *)
Theorem assign_leaves_token f s a r : assign f s = Ok a r -> r <> [].
Proof.
  destruct f as [|f]; intros H; [discriminate|]. cbn [assign] in H. inv_binds H.
  - eapply logor_nonempty; exact Hm1.
  - unfold consume in Hm0. inv_binds Hm0; [discriminate Hm0|].
    cbv [ret] in Hm0. injection Hm0 as ->. eapply peek_nonempty; exact Hm1.
Qed.

Lemma assign_leaves_token_witness :
  assign 12 [tk_num 1 "1"; tk_semi] = Ok (num_node 1) [tk_semi] /\ [tk_semi] <> [].
Proof.
  assert (H : assign 12 [tk_num 1 "1"; tk_semi] = Ok (num_node 1) [tk_semi])
    by (vm_compute; reflexivity).
  split; [exact H|]. exact (assign_leaves_token _ _ _ _ H).
Defined.

(** X10. A clause that holds an expression cannot be left empty: [return;],
    [while()], [if()] and the condition-less [for(;] are rejected by
    [primary] at the token where the expression should start, while a
    lone [;] is the empty statement. *)
Theorem empty_clause_rejected fuel ki li si s :
  14 <= fuel ->
  stmt fuel (MkToken TokenType.Return ki :: MkToken TokenType.Semicolon si :: s)
  = Err (PanicMsg "number expected, but got " si) /\
  stmt fuel (MkToken TokenType.While ki :: MkToken TokenType.LeftParen li ::
             MkToken TokenType.RightParen si :: s)
  = Err (PanicMsg "number expected, but got " si) /\
  stmt fuel (MkToken TokenType.If ki :: MkToken TokenType.LeftParen li ::
             MkToken TokenType.RightParen si :: s)
  = Err (PanicMsg "number expected, but got " si) /\
  stmt fuel (MkToken TokenType.For ki :: MkToken TokenType.LeftParen li ::
             MkToken TokenType.Semicolon si :: s)
  = Err (PanicMsg "number expected, but got " si) /\
  stmt fuel (MkToken TokenType.Semicolon si :: s) = Ok (new_node NodeType.Null) s.
Proof.
  intros Hf. mono_of Hf. repeat split; at_fuel Mstmt 14.
Qed.

Lemma empty_clause_rejected_witness :
  14 <= 14 /\
  stmt 14 [MkToken TokenType.Return "return"; MkToken TokenType.Semicolon ";"]
  = Err (PanicMsg "number expected, but got " ";").
Proof.
  split; [lia|]. exact (proj1 (empty_clause_rejected 14 "return" "(" ";" [] (le_n 14))).
Defined.

Lemma strict_no_fuel A : Strict (A := A) no_fuel.
Proof. intros s a s' H; discriminate. Qed.

Lemma strict_panic A p : Strict (A := A) (panic p).
Proof. intros s a s' H; discriminate. Qed.

Lemma strict_bind_l A B (m : PM A) (k : A -> PM B) :
  Strict m -> (forall a, Suf (k a)) -> Strict (bind m k).
Proof.
  intros Hm Hk s b s' H. unfold bind in H.
  destruct (m s) as [a s1| |] eqn:E; try discriminate.
  specialize (Hm _ _ _ E). destruct (Hk _ _ _ _ H) as [x ->].
  rewrite length_app in Hm. lia.
Qed.

Lemma strict_peek B (k : Token -> PM B) :
  (forall t, Strict1 t (k t)) -> Strict (bind peek k).
Proof.
  intros Hk [|t s] b s' H; [discriminate|]. unfold bind, peek in H.
  specialize (Hk _ _ _ _ H). simpl. lia.
Qed.

Lemma strict1_advance B t (m : PM B) : Suf m -> Strict1 t (bind advance (fun _ => m)).
Proof.
  intros Hm s b s' H. unfold bind, advance in H. simpl in H.
  destruct (Hm _ _ _ H) as [x ->]. rewrite length_app. lia.
Qed.

Lemma strict1_of_strict B t (m : PM B) : Strict m -> Strict1 t m.
Proof. intros Hm s b s' H. specialize (Hm _ _ _ H). simpl in Hm. lia. Qed.

Lemma strict_consume_if B k (m1 m2 : PM B) :
  Suf m1 -> Strict m2 -> Strict (bind (consume k) (fun b => if b then m1 else m2)).
Proof.
  intros H1 H2 [|t s] b s' H; [discriminate|].
  cbv [bind consume peek advance ret] in H.
  destruct (TokenType.eqb (ty t) k); simpl in H.
  - destruct (H1 _ _ _ H) as [x ->]. simpl. rewrite length_app. lia.
  - exact (H2 _ _ _ H).
Qed.

Lemma strict_expr f :
  Strict (primary f) /\ Strict (postfix f) /\ Strict (unary f) /\ Strict (mul f) /\
  Strict (add f) /\ Strict (rel f) /\ Strict (equality f) /\ Strict (logand f) /\
  Strict (logor f) /\ Strict (assign f).
Proof.
  induction f as [|f IH].
  - repeat split; apply strict_no_fuel.
  - destruct IH as (Sprimary & Spostfix & Sunary & Smul & Sadd & Srel & Sequality &
      Slogand & Slogor & Sassign).
    destruct (suf_all f) as (Hprimary & Hcall_args & Hpostfix & Hpostfix_loop & Hunary & Hmul &
      Hmul_loop & Hadd & Hadd_loop & Hrel & Hrel_loop & Hequality & Hlogand &
      Hlogand_loop & Hlogor & Hlogor_loop & Hassign & Hread_dims & Hread_array &
      Hdecl & Hexpr_stmt & Hstmt & Hstmt_list & Hcompound_stmt).
    repeat split; cbn [primary postfix unary mul add rel equality logand logor assign].
    + apply strict_peek. intros t. apply strict1_advance. suf_tac.
    + apply strict_bind_l; [exact Sprimary | exact Hpostfix_loop].
    + repeat (apply strict_consume_if; [suf_tac|]). exact Spostfix.
    + apply strict_bind_l; [exact Sunary | exact Hmul_loop].
    + apply strict_bind_l; [exact Smul | exact Hadd_loop].
    + apply strict_bind_l; [exact Sadd | exact Hrel_loop].
    + apply strict_bind_l; [exact Srel | suf_tac].
    + apply strict_bind_l; [exact Sequality | exact Hlogand_loop].
    + apply strict_bind_l; [exact Slogand | exact Hlogor_loop].
    + apply strict_bind_l; [exact Slogor | suf_tac].
Qed.

Lemma strict_ctype f : Strict (ctype f).
Proof.
  unfold ctype. apply strict_peek. intros t. destruct (get_type t).
  - apply strict1_advance. apply (pr_ctype_ptrs (@Suf));
      auto using suf_ret, suf_peek, suf_advance, suf_at_end, suf_panic, suf_no_fuel, suf_bind.
  - apply strict1_of_strict, strict_panic.
Qed.

Lemma strict_decl f : Strict (decl f).
Proof.
  destruct f as [|f]; [apply strict_no_fuel|]. cbn [decl].
  apply strict_bind_l; [apply strict_ctype|]. destruct (suf_all f) as (_ & _ & _ & _ & _ & _ &
      _ & _ & _ & _ & _ & _ & _ & _ & _ & _ & Hassign & Hread_dims & Hread_array & _).
  suf_tac.
Qed.

Lemma suf_ctype_ptrs f t : Suf (ctype_ptrs f t).
Proof.
  apply (pr_ctype_ptrs (@Suf));
    auto using suf_ret, suf_peek, suf_advance, suf_at_end, suf_panic, suf_no_fuel, suf_bind.
Qed.

Lemma suf_param f : Suf (param f).
Proof. unfold param. pose proof (suf_ctype_ptrs f). suf_tac. Qed.

Lemma suf_param_list f l : Suf (param_list f l).
Proof.
  revert l; induction f as [|f IH]; intros l; cbn [param_list]; [apply suf_no_fuel|].
  pose proof (suf_param f). pose proof (suf_ctype_ptrs f). suf_tac.
Qed.

(** X11. Every statement and every top-level definition consumes at least
    one token when it succeeds, and so does every expression; the loops
    [while !consume(RightBrace) { stmt }] of [compound_stmt] and
    [while tokens.len() != pos { toplevel }] of [parse] therefore move
    forward at each iteration. *)
Theorem stmt_toplevel_consume size_of f :
  Strict (stmt f) /\ Strict (toplevel size_of f) /\ Strict (assign f).
Proof.
  destruct (strict_expr f) as (_ & _ & _ & _ & _ & _ & _ & _ & _ & Sassign).
  split; [|split; [|exact Sassign]].
  - destruct f as [|f]; [apply strict_no_fuel|]. cbn [stmt].
    destruct (strict_expr f) as (_ & _ & _ & _ & _ & _ & _ & _ & _ & Sassign').
    destruct (suf_all f) as (Hprimary & Hcall_args & Hpostfix & Hpostfix_loop & Hunary & Hmul &
      Hmul_loop & Hadd & Hadd_loop & Hrel & Hrel_loop & Hequality & Hlogand &
      Hlogand_loop & Hlogor & Hlogor_loop & Hassign & Hread_dims & Hread_array &
      Hdecl & Hexpr_stmt & Hstmt & Hstmt_list & Hcompound_stmt).
    apply strict_peek. intros t. destruct (ty t);
      first [ apply strict1_advance; suf_tac
            | apply strict1_of_strict, strict_decl
            | apply strict1_of_strict, strict_bind_l; [exact Sassign' | suf_tac] ].
  - unfold toplevel. apply strict_bind_r; [apply suf_consume|]. intros e.
    apply strict_bind_l; [apply strict_ctype|].
    destruct (suf_all f) as (Hprimary & Hcall_args & Hpostfix & Hpostfix_loop & Hunary & Hmul &
      Hmul_loop & Hadd & Hadd_loop & Hrel & Hrel_loop & Hequality & Hlogand &
      Hlogand_loop & Hlogor & Hlogor_loop & Hassign & Hread_dims & Hread_array &
      Hdecl & Hexpr_stmt & Hstmt & Hstmt_list & Hcompound_stmt).
    pose proof (suf_param_list f). pose proof (suf_param f). pose proof (suf_ctype_ptrs f).
    suf_tac.
Qed.

(** X12. A dangling [else] belongs to the nearest [if]: in
    [if (x) if (y) ; else ;] the inner [if] takes the [else], and the
    outer [if] is left without one, whatever token follows (other than
    a further [else]). *)
Theorem dangling_else_nearest fuel x y t s :
  TokenType.eqb t.(ty) TokenType.Else = false -> 20 <= fuel ->
  stmt fuel ([tk_if; tk_lparen; tk_ident x; tk_rparen;
              tk_if; tk_lparen; tk_ident y; tk_rparen; tk_semi; tk_else; tk_semi] ++ t :: s)
  = Ok (new_node (NodeType.If (var_node x)
          (new_node (NodeType.If (var_node y) (new_node NodeType.Null)
                                 (Some (new_node NodeType.Null))))
          None)) (t :: s).
Proof.
  intros Ht Hf. mono_of Hf. destruct t as [k i].
  destruct k; try discriminate Ht; at_fuel Mstmt 20.
Qed.

Lemma dangling_else_nearest_witness :
  stmt 20 ([tk_if; tk_lparen; tk_ident "x"; tk_rparen;
            tk_if; tk_lparen; tk_ident "y"; tk_rparen; tk_semi; tk_else; tk_semi] ++ [tk_semi])
  = Ok (new_node (NodeType.If (var_node "x")
          (new_node (NodeType.If (var_node "y") (new_node NodeType.Null)
                                 (Some (new_node NodeType.Null))))
          None)) [tk_semi].
Proof. exact (dangling_else_nearest 20 "x" "y" tk_semi [] eq_refl (le_n 20)). Defined.

End ParseExtra.
